(** * Keyframe animation (src/runner/animation/keyframe_animation.js)

    A shallow embedding of [KeyframeAnimation]: the key normaliser
    [_convertKeysToFrames], the gap filler [_fillInProperties], the segment
    builder [_createTweens], the playback methods [play], [pause], [reset],
    [onStep], [step] and the subject bindings [addSubject], [removeSubject].

    Numbers are JavaScript numbers without rounding: exact rationals extended
    with [Infinity], [-Infinity] and [NaN] (signed zeros are not
    distinguished); where a property depends on the rounding of doubles,
    [Binary64] repeats the arithmetic on binary64 floats.  Objects are association lists in insertion order.
    Methods that can throw return an [outcome], which keeps the mutations
    made before the exception.  The collaborators of the file stay outside:
    the clock's conversion and the interpolation primitive are parameters,
    the subjects are references into a store of attribute maps, an emitted
    event is logged and the subscription to the clock is a flag. *)

From Stdlib Require Import QArith ZArith List String Ascii Bool Lia Lqa.
From Stdlib Require Import Permutation.
From Stdlib Require PrimFloat.
Import ListNotations.

Local Open Scope Q_scope.

(** ** JavaScript numbers and values *)

Module JS.

Inductive num : Type :=
| Fin (q : Q)
| PInf
| NInf
| NaN.

Definition num_neg (a : num) : num :=
  match a with
  | Fin q => Fin (- q)
  | PInf => NInf
  | NInf => PInf
  | NaN => NaN
  end.

Definition num_add (a b : num) : num :=
  match a, b with
  | NaN, _ | _, NaN => NaN
  | Fin x, Fin y => Fin (x + y)
  | PInf, NInf | NInf, PInf => NaN
  | PInf, _ | _, PInf => PInf
  | NInf, _ | _, NInf => NInf
  end.

Definition num_sub (a b : num) : num := num_add a (num_neg b).

Definition Qpos_bool (q : Q) : bool := negb (Qle_bool q 0).
Definition Qneg_bool (q : Q) : bool := negb (Qle_bool 0 q).

Definition num_mul (a b : num) : num :=
  match a, b with
  | NaN, _ | _, NaN => NaN
  | Fin x, Fin y => Fin (x * y)
  | Fin x, PInf | PInf, Fin x =>
      if Qeq_bool x 0 then NaN else if Qpos_bool x then PInf else NInf
  | Fin x, NInf | NInf, Fin x =>
      if Qeq_bool x 0 then NaN else if Qpos_bool x then NInf else PInf
  | PInf, PInf | NInf, NInf => PInf
  | PInf, NInf | NInf, PInf => NInf
  end.

(** [a / b]: a division by zero raises nothing, it yields an infinity or
    [NaN]. *)
Definition num_div (a b : num) : num :=
  match a, b with
  | NaN, _ | _, NaN => NaN
  | Fin x, Fin y =>
      if Qeq_bool y 0
      then (if Qeq_bool x 0 then NaN else if Qpos_bool x then PInf else NInf)
      else Fin (x / y)
  | Fin _, _ => Fin 0
  | PInf, Fin y => if Qneg_bool y then NInf else PInf
  | NInf, Fin y => if Qneg_bool y then PInf else NInf
  | _, _ => NaN
  end.

(** [a > b] on numbers; every comparison with [NaN] is false. *)
Definition num_gt (a b : num) : bool :=
  match a, b with
  | NaN, _ | _, NaN => false
  | Fin x, Fin y => negb (Qle_bool x y)
  | PInf, PInf => false
  | PInf, _ => true
  | NInf, _ => false
  | Fin _, NInf => true
  | Fin _, PInf => false
  end.

(** [a === b] on numbers. *)
Definition num_eqb (a b : num) : bool :=
  match a, b with
  | Fin x, Fin y => Qeq_bool x y
  | PInf, PInf | NInf, NInf => true
  | _, _ => false
  end.

Definition num_truthy (a : num) : bool :=
  match a with
  | Fin q => negb (Qeq_bool q 0)
  | NaN => false
  | _ => true
  end.

(** Numerical equality as a proposition ([Qeq] on the finite numbers). *)
Definition num_equiv (a b : num) : Prop :=
  match a, b with
  | Fin x, Fin y => x == y
  | PInf, PInf | NInf, NInf | NaN, NaN => True
  | _, _ => False
  end.

Inductive value : Type :=
| VUndefined
| VNull
| VBool (b : bool)
| VNum (n : num)
| VStr (s : string).

(** *** Strings to numbers *)

Definition is_digit (c : ascii) : bool :=
  (48 <=? nat_of_ascii c)%nat && (nat_of_ascii c <=? 57)%nat.

Definition digit_val (c : ascii) : Z := Z.of_nat (nat_of_ascii c) - 48.

Fixpoint digits_val (acc : Z) (l : list ascii) : Z :=
  match l with
  | [] => acc
  | c :: l' => digits_val (acc * 10 + digit_val c) l'
  end.

Fixpoint take_digits (l : list ascii) : list ascii * list ascii :=
  match l with
  | c :: l' =>
      if is_digit c
      then let (d, r) := take_digits l' in (c :: d, r)
      else ([], l)
  | [] => ([], [])
  end.

Definition is_nil {A} (l : list A) : bool :=
  match l with [] => true | _ => false end.

Definition decimal_of (ip fp : list ascii) : Q :=
  inject_Z (digits_val 0 (ip ++ fp)) / inject_Z (10 ^ Z.of_nat (List.length fp)).

(** An unsigned decimal literal without exponent: [12], [12.5], [12.], [.5]. *)
Definition parse_unsigned (l : list ascii) : option Q :=
  let (ip, rest) := take_digits l in
  match rest with
  | [] => if is_nil ip then None else Some (decimal_of ip [])
  | c :: r =>
      if Ascii.eqb c "."%char then
        let (fp, rest') := take_digits r in
        if is_nil rest' && negb (is_nil ip && is_nil fp)
        then Some (decimal_of ip fp) else None
      else None
  end.

(** [Number(s)] for the literals the model reads: the empty string, signed
    decimal literals without exponent and the infinities.  Exponents,
    hexadecimal literals and surrounding white space are not modelled and
    read as [NaN]. *)
Definition string_to_number (s : string) : num :=
  let signed (l : list ascii) : option num :=
    if String.eqb (string_of_list_ascii l) "Infinity" then Some PInf
    else option_map Fin (parse_unsigned l) in
  match list_ascii_of_string s with
  | [] => Fin 0
  | c :: l =>
      let r :=
        if Ascii.eqb c "-"%char then option_map num_neg (signed l)
        else if Ascii.eqb c "+"%char then signed l
        else signed (c :: l) in
      match r with Some n => n | None => NaN end
  end.

(** [parseFloat(s)]: the longest leading unsigned decimal literal. *)
Definition parseFloat (s : string) : num :=
  let (ip, rest) := take_digits (list_ascii_of_string s) in
  match rest with
  | c :: r =>
      if Ascii.eqb c "."%char then
        let (fp, _) := take_digits r in
        if is_nil ip && is_nil fp then NaN else Fin (decimal_of ip fp)
      else if is_nil ip then NaN else Fin (decimal_of ip [])
  | [] => if is_nil ip then NaN else Fin (decimal_of ip [])
  end.

(** *** Conversions and operators on values *)

Definition to_number (v : value) : num :=
  match v with
  | VUndefined => NaN
  | VNull => Fin 0
  | VBool b => if b then Fin 1 else Fin 0
  | VNum n => n
  | VStr s => string_to_number s
  end.

Definition truthy (v : value) : bool :=
  match v with
  | VUndefined | VNull => false
  | VBool b => b
  | VNum n => num_truthy n
  | VStr s => negb (String.eqb s "")
  end.

(** [a && b] and [a || b] return one of their operands. *)
Definition js_and (a b : value) : value := if truthy a then b else a.
Definition js_or (a b : value) : value := if truthy a then a else b.

(** [v == null]. *)
Definition is_nullish (v : value) : bool :=
  match v with
  | VUndefined | VNull => true
  | _ => false
  end.

(** [a > b]: two strings are compared as strings, code unit by code unit;
    every other pair is compared as numbers. *)
Definition js_gt (a b : value) : bool :=
  match a, b with
  | VStr s, VStr t => String.ltb t s
  | _, _ => num_gt (to_number a) (to_number b)
  end.

(** [a === b]. *)
Definition strict_eq (a b : value) : bool :=
  match a, b with
  | VUndefined, VUndefined | VNull, VNull => true
  | VBool x, VBool y => Bool.eqb x y
  | VNum x, VNum y => num_eqb x y
  | VStr s, VStr t => String.eqb s t
  | _, _ => false
  end.

(** *** Objects *)

(** A plain object: own properties in insertion order. *)
Definition obj : Type := list (string * value).

Fixpoint obj_has (o : obj) (p : string) : bool :=
  match o with
  | [] => false
  | (k, _) :: o' => String.eqb k p || obj_has o' p
  end.

Fixpoint obj_get (o : obj) (p : string) : value :=
  match o with
  | [] => VUndefined
  | (k, v) :: o' => if String.eqb k p then v else obj_get o' p
  end.

Fixpoint obj_set (o : obj) (p : string) (v : value) : obj :=
  match o with
  | [] => [(p, v)]
  | (k, w) :: o' =>
      if String.eqb k p then (k, v) :: o' else (k, w) :: obj_set o' p v
  end.

Definition obj_keys (o : obj) : list string := map fst o.

End JS.

Import JS.

(** ** Property keys of the keyframe object

    [keyframesClean[frame]] turns [frame] into a property key.  A key that is
    the canonical spelling of a number is identified with that number, so that
    the string ["10"] and the number [10] name the same property, while
    ["5.0"] or ["05"] stay keys of their own. *)

Module Keys.

Inductive pkey : Type :=
| KNum (n : num)
| KStr (s : string).

Definition canonical_unsigned (l : list ascii) : bool :=
  let (ip, rest) := take_digits l in
  let ip_ok :=
    match ip with
    | [] => false
    | c :: r => negb (Ascii.eqb c "0"%char) || is_nil r
    end in
  match rest with
  | [] => ip_ok
  | c :: r =>
      let (fp, rest') := take_digits r in
      Ascii.eqb c "."%char && is_nil rest' && negb (is_nil fp)
      && negb (Ascii.eqb (last fp "0"%char) "0"%char) && ip_ok
  end.

(** The strings [String(n)] produces, for numbers printed without exponent. *)
Definition canonical_numeric (s : string) : bool :=
  match list_ascii_of_string s with
  | c :: l =>
      if Ascii.eqb c "-"%char
      then (canonical_unsigned l && negb (String.eqb s "-0"))
           || String.eqb s "-Infinity"
      else canonical_unsigned (c :: l) || String.eqb s "Infinity"
           || String.eqb s "NaN"
  | [] => false
  end.

Definition string_key (s : string) : pkey :=
  if canonical_numeric s then KNum (string_to_number s) else KStr s.

Definition property_key (v : value) : pkey :=
  match v with
  | VNum n => KNum n
  | VStr s => string_key s
  | VUndefined => KStr "undefined"
  | VNull => KStr "null"
  | VBool b => KStr (if b then "true" else "false")
  end.

Definition pkey_eqb (a b : pkey) : bool :=
  match a, b with
  | KNum (Fin x), KNum (Fin y) => Qeq_bool x y
  | KNum PInf, KNum PInf | KNum NInf, KNum NInf | KNum NaN, KNum NaN => true
  | KStr s, KStr t => String.eqb s t
  | _, _ => false
  end.

(** [Number(key)] of a property key. *)
Definition pkey_number (k : pkey) : num :=
  match k with
  | KNum n => n
  | KStr s => string_to_number s
  end.

(** The keyframe object: frame key to property map. *)
Definition kfmap : Type := list (pkey * obj).

Fixpoint kf_get (m : kfmap) (k : pkey) : option obj :=
  match m with
  | [] => None
  | (k', o) :: m' => if pkey_eqb k' k then Some o else kf_get m' k
  end.

Fixpoint kf_set (m : kfmap) (k : pkey) (o : obj) : kfmap :=
  match m with
  | [] => [(k, o)]
  | (k', o') :: m' =>
      if pkey_eqb k' k then (k', o) :: m' else (k', o') :: kf_set m' k o
  end.

(** [keyframes[n]] for a number [n]. *)
Definition kf_at (m : kfmap) (n : num) : option obj := kf_get m (KNum n).

(** [keys.sort(function(a, b){ return a - b; })], as a stable insertion
    sort.  With a [NaN] key the comparator is inconsistent and the place of
    that key depends on the order of [Object.keys] and on the engine: the
    order is the program's for finite keys. *)
Fixpoint sort_insert (x : num) (l : list num) : list num :=
  match l with
  | [] => [x]
  | y :: l' =>
      if num_gt (Fin 0) (num_sub x y) then x :: l else y :: sort_insert x l'
  end.

Definition sort_keys (l : list num) : list num :=
  fold_left (fun acc x => sort_insert x acc) l [].

End Keys.

Import Keys.

(** ** The animation object *)

Inductive error : Type :=
| TypeError
| Error (msg : string).

(** The result of a method call: it returns, or it throws; either way the
    mutations made so far stay. *)
Inductive outcome (A : Type) : Type :=
| Done (a : A)
| Raised (e : error) (a : A).

Arguments Done {A} a.
Arguments Raised {A} e a.

(** A segment: a [PropertiesTween] over two property maps ([None] is
    [undefined]) with the progress window [_createTweens] adds to it. *)
Record tween : Type := mkTween {
  fromValues : option obj;
  toValues : option obj;
  startProgress : num;
  endProgress : num
}.

(** An entry of [this.subjects]; a subject is known by its reference. *)
Record binding : Type := mkBinding {
  subject : nat;
  tweens : list tween
}.

(** The attributes of the subjects, by reference. *)
Definition heap : Type := list (nat * obj).

Fixpoint heap_get (h : heap) (s : nat) : obj :=
  match h with
  | [] => []
  | (s', o) :: h' => if Nat.eqb s' s then o else heap_get h' s
  end.

Fixpoint heap_set (h : heap) (s : nat) (o : obj) : heap :=
  match h with
  | [] => [(s, o)]
  | (s', o') :: h' =>
      if Nat.eqb s' s then (s', o) :: h' else (s', o') :: heap_set h' s o
  end.

(** Modelled from the spec: [tools.mixin(target, source)], an external
    helper; it merges the properties of [source] on top of [target], and an
    [undefined] source adds nothing. *)
Definition mixin (target : obj) (source : option obj) : obj :=
  match source with
  | Some src => fold_left (fun t kv => obj_set t (fst kv) (snd kv)) src target
  | None => target
  end.

(** Modelled from the spec: [subject.attr(values)], the write half of the
    external attribute accessor of a subject; it merges [values] into the
    attributes of the subject. *)
Definition attr_write (h : heap) (s : nat) (values : obj) : heap :=
  heap_set h s (mixin (heap_get h s) (Some values)).

Record animation : Type := mkAnimation {
  duration : value;
  keyframes : kfmap;
  keys : list num;
  subjects : list binding;
  (* [this.animations] is read by [removeSubject] and assigned nowhere in
     the file: [None] is [undefined], [Some l] an array set from outside. *)
  animations : option (list nat);
  repeat : num;
  delay : num;
  isTimelineBound : bool;
  easing : option (num -> num);
  prevFrame : num;
  frame : num;
  currentDelay : num;
  currentTweenIndex : nat;
  isPlaying : bool;
  (* the environment the methods act on *)
  listening : bool;        (* [onStep] is subscribed to the clock *)
  emitted : list string;   (* the events emitted so far, oldest first *)
  attrs : heap
}.

Definition set_duration v a :=
  mkAnimation v (keyframes a) (keys a) (subjects a) (animations a) (repeat a)
    (delay a) (isTimelineBound a) (easing a) (prevFrame a) (frame a)
    (currentDelay a) (currentTweenIndex a) (isPlaying a) (listening a)
    (emitted a) (attrs a).
Definition set_keyframes v a :=
  mkAnimation (duration a) v (keys a) (subjects a) (animations a) (repeat a)
    (delay a) (isTimelineBound a) (easing a) (prevFrame a) (frame a)
    (currentDelay a) (currentTweenIndex a) (isPlaying a) (listening a)
    (emitted a) (attrs a).
Definition set_keys v a :=
  mkAnimation (duration a) (keyframes a) v (subjects a) (animations a)
    (repeat a) (delay a) (isTimelineBound a) (easing a) (prevFrame a)
    (frame a) (currentDelay a) (currentTweenIndex a) (isPlaying a)
    (listening a) (emitted a) (attrs a).
Definition set_subjects v a :=
  mkAnimation (duration a) (keyframes a) (keys a) v (animations a) (repeat a)
    (delay a) (isTimelineBound a) (easing a) (prevFrame a) (frame a)
    (currentDelay a) (currentTweenIndex a) (isPlaying a) (listening a)
    (emitted a) (attrs a).
Definition set_repeat v a :=
  mkAnimation (duration a) (keyframes a) (keys a) (subjects a) (animations a)
    v (delay a) (isTimelineBound a) (easing a) (prevFrame a) (frame a)
    (currentDelay a) (currentTweenIndex a) (isPlaying a) (listening a)
    (emitted a) (attrs a).
Definition set_prevFrame v a :=
  mkAnimation (duration a) (keyframes a) (keys a) (subjects a) (animations a)
    (repeat a) (delay a) (isTimelineBound a) (easing a) v (frame a)
    (currentDelay a) (currentTweenIndex a) (isPlaying a) (listening a)
    (emitted a) (attrs a).
Definition set_frame v a :=
  mkAnimation (duration a) (keyframes a) (keys a) (subjects a) (animations a)
    (repeat a) (delay a) (isTimelineBound a) (easing a) (prevFrame a) v
    (currentDelay a) (currentTweenIndex a) (isPlaying a) (listening a)
    (emitted a) (attrs a).
Definition set_currentDelay v a :=
  mkAnimation (duration a) (keyframes a) (keys a) (subjects a) (animations a)
    (repeat a) (delay a) (isTimelineBound a) (easing a) (prevFrame a)
    (frame a) v (currentTweenIndex a) (isPlaying a) (listening a)
    (emitted a) (attrs a).
Definition set_currentTweenIndex v a :=
  mkAnimation (duration a) (keyframes a) (keys a) (subjects a) (animations a)
    (repeat a) (delay a) (isTimelineBound a) (easing a) (prevFrame a)
    (frame a) (currentDelay a) v (isPlaying a) (listening a) (emitted a)
    (attrs a).
Definition set_isPlaying v a :=
  mkAnimation (duration a) (keyframes a) (keys a) (subjects a) (animations a)
    (repeat a) (delay a) (isTimelineBound a) (easing a) (prevFrame a)
    (frame a) (currentDelay a) (currentTweenIndex a) v (listening a)
    (emitted a) (attrs a).
Definition set_listening v a :=
  mkAnimation (duration a) (keyframes a) (keys a) (subjects a) (animations a)
    (repeat a) (delay a) (isTimelineBound a) (easing a) (prevFrame a)
    (frame a) (currentDelay a) (currentTweenIndex a) (isPlaying a) v
    (emitted a) (attrs a).
Definition set_emitted v a :=
  mkAnimation (duration a) (keyframes a) (keys a) (subjects a) (animations a)
    (repeat a) (delay a) (isTimelineBound a) (easing a) (prevFrame a)
    (frame a) (currentDelay a) (currentTweenIndex a) (isPlaying a)
    (listening a) v (attrs a).
Definition set_attrs v a :=
  mkAnimation (duration a) (keyframes a) (keys a) (subjects a) (animations a)
    (repeat a) (delay a) (isTimelineBound a) (easing a) (prevFrame a)
    (frame a) (currentDelay a) (currentTweenIndex a) (isPlaying a)
    (listening a) (emitted a) v.

(** [this.emit(name, this)]: the listeners are outside the model, the
    emission is logged. *)
Definition emit (name : string) (a : animation) : animation :=
  set_emitted (emitted a ++ [name]) a.

(** [clock.on(..., this, this.onStep)] and [clock.removeListener(...)]: the
    subscription is keyed by signal, context and handler. *)
Definition clock_on (a : animation) : animation := set_listening true a.
Definition clock_removeListener (a : animation) : animation :=
  set_listening false a.

Definition bind {A} (m : outcome A) (f : A -> outcome A) : outcome A :=
  match m with
  | Done a => f a
  | Raised e a => Raised e a
  end.

Definition outcome_map {A B} (g : A -> B) (m : outcome A) : outcome B :=
  match m with
  | Done a => Done (g a)
  | Raised e a => Raised e (g a)
  end.

Definition state_of {A} (m : outcome A) : A :=
  match m with Done a | Raised _ a => a end.

Definition raised {A} (m : outcome A) : option error :=
  match m with Done _ => None | Raised e _ => Some e end.

(** The value of an expression that may throw. *)
Inductive res (A : Type) : Type :=
| Val (x : A)
| Exn (e : error).

Arguments Val {A} x.
Arguments Exn {A} e.

(** The options object, after [_parseEventProps] took the [on...] handlers
    out; [opt_easing] is the easing function the option resolves to. *)
Record options : Type := mkOptions {
  opt_easing : option (num -> num);
  opt_subjects : option (list nat);
  opt_delay : value;
  opt_repeat : value;
  opt_isTimelineBound : value
}.

(** [n % 1] *)
Definition num_rem1 (n : num) : num :=
  match n with
  | Fin q => Fin (q - inject_Z (Z.quot (Qnum q) (Zpos (Qden q))))
  | _ => NaN
  end.

Section Methods.

(** [clock.toFrameNumber], the time-to-frame conversion of the clock. *)
Variable toFrameNumber : value -> num.

(** [new PropertiesTween(from, to, easing).at(progress)], the interpolation
    primitive. *)
Variable tween_at :
  option obj -> option obj -> option (num -> num) -> num -> obj.

(** *** [_convertKeysToFrames] *)

Definition is_from_start (key : string) : bool :=
  String.eqb key "from" || String.eqb key "start".

Definition is_to_end (key : string) : bool :=
  String.eqb key "to" || String.eqb key "end".

(** [/^\d+%$/.test(key)] *)
Definition is_percent (key : string) : bool :=
  let (d, rest) := take_digits (list_ascii_of_string key) in
  negb (is_nil d)
  && match rest with
     | [c] => Ascii.eqb c "%"%char
     | _ => false
     end.

(** [key == +key]: the string is compared as a number with its own
    conversion, which fails exactly on [NaN]. *)
Definition is_numeric_key (key : string) : bool :=
  num_eqb (string_to_number key) (to_number (VStr key)).

(** The frame a label resolves to.  A numeric label stays the string it
    is. *)
Definition resolve_frame (duration : value) (key : string) : value :=
  if is_numeric_key key then VStr key
  else if is_from_start key then VNum (Fin 0)
  else if is_to_end key then duration
  else if is_percent key then
    VNum (num_div (num_mul (to_number duration) (parseFloat key)) (Fin 100))
  else VNum (toFrameNumber (VStr key)).

(** The loop over [Object.keys(keyframes)], given in that order. *)
Fixpoint convert_loop (duration : value) (entries : list (string * obj))
    (keyframesClean : kfmap) (maxFrame : value) : kfmap * value :=
  match entries with
  | [] => (keyframesClean, maxFrame)
  | (key, props) :: rest =>
      let frame := resolve_frame duration key in
      convert_loop duration rest
        (kf_set keyframesClean (property_key frame) props)
        (if js_gt frame maxFrame then frame else maxFrame)
  end.

Definition _convertKeysToFrames (entries : list (string * obj))
    (a : animation) : kfmap * animation :=
  let (keyframesClean, maxFrame) :=
    convert_loop (duration a) entries [] (VNum (Fin 0)) in
  (keyframesClean,
   if js_gt maxFrame (duration a) then set_duration maxFrame a else a).

(** *** [_createTweens] *)

Definition createTweens_step (a : animation)
    (acc : num * option obj * list tween) (key : num)
    : num * option obj * list tween :=
  let '(totalDuration, prevValues, tweens) := acc in
  if num_eqb key (Fin 0) then acc
  else
    let animationDuration := num_sub key totalDuration in
    let start := num_div totalDuration (to_number (duration a)) in
    let tw :=
      mkTween prevValues (kf_at (keyframes a) key) start
        (num_add start (num_div animationDuration (to_number (duration a)))) in
    (num_add totalDuration animationDuration, kf_at (keyframes a) key,
     tweens ++ [tw]).

(** [this.keys.forEach(...)] over the keys [ks], from the totals [acc]. *)
Definition createTweens_loop (a : animation) (ks : list num)
    (acc : num * option obj * list tween) : num * option obj * list tween :=
  fold_left (createTweens_step a) ks acc.

Definition _createTweens (startValues : obj) (a : animation) : list tween :=
  snd (createTweens_loop a (keys a) (Fin 0, Some startValues, [])).

(** *** [_fillInProperties] *)

Definition add_property (props : list string) (p : string) : list string :=
  if existsb (String.eqb p) props then props else props ++ [p].

Definition gather_properties (ks : list num) (kfs : kfmap) : list string :=
  fold_left
    (fun props key =>
       match kf_at kfs key with
       | Some keyframe => fold_left add_property (obj_keys keyframe) props
       | None => props
       end)
    ks [].

(** The first of the frames [ks] whose keyframe has [prop], or [null];
    [hasOwn.call(undefined, prop)] throws. *)
Fixpoint first_defined (kfs : kfmap) (prop : string) (ks : list num)
    : res value :=
  match ks with
  | [] => Val VNull
  | k :: ks' =>
      match kf_at kfs k with
      | None => Exn TypeError
      | Some keyframe =>
          if obj_has keyframe prop then Val (VNum k)
          else first_defined kfs prop ks'
      end
  end.

Definition getFrameOfLastDefinedProperty (kfs : kfmap) (ks : list num)
    (prop : string) (keysIndex : nat) : res value :=
  first_defined kfs prop (rev (firstn keysIndex ks)).

Definition getFrameOfNextDefinedProperty (kfs : kfmap) (ks : list num)
    (prop : string) (keysIndex : nat) : res value :=
  first_defined kfs prop (skipn keysIndex ks).

(** [f && keyframes[f][p]] *)
Definition frame_and_value (kfs : kfmap) (f : value) (p : string)
    : res value :=
  if truthy f then
    match kf_get kfs (property_key f) with
    | Some keyframe => Val (obj_get keyframe p)
    | None => Exn TypeError
    end
  else Val f.

Definition no_initial_value (p : string) : error :=
  Error ("No initial value specified for property: " ++ p).

(** The body of the loop over [properties], for the keyframe at [frame]
    (the [i]th key) and the property [p]. *)
Definition fill_property (a : animation) (initialValues : obj)
    (frame : num) (i : nat) (p : string) (kfs : kfmap) : outcome kfmap :=
  match kf_at kfs frame with
  | None => Raised TypeError kfs
  | Some keyframe =>
      if obj_has keyframe p then Done kfs
      else
        match getFrameOfLastDefinedProperty kfs (keys a) p i,
              getFrameOfNextDefinedProperty kfs (keys a) p i with
        | Exn e, _ | Val _, Exn e => Raised e kfs
        | Val prevFrame, Val nextFrame =>
            match frame_and_value kfs prevFrame p,
                  frame_and_value kfs nextFrame p with
            | Exn e, _ | Val _, Exn e => Raised e kfs
            | Val pv, Val nextValue =>
                let prevValue := js_or pv (obj_get initialValues p) in
                if is_nullish prevValue then Raised (no_initial_value p) kfs
                else
                  let '(nextValue, nextFrame) :=
                    if is_nullish nextValue then (prevValue, duration a)
                    else (nextValue, nextFrame) in
                  let progress :=
                    num_div
                      (num_sub frame (to_number prevFrame))
                      (num_sub (to_number nextFrame) (to_number prevFrame)) in
                  let v :=
                    obj_get
                      (tween_at (Some [(p, prevValue)]) (Some [(p, nextValue)])
                         (easing a) progress) p in
                  Done (kf_set kfs (KNum frame) (obj_set keyframe p v))
            end
        end
  end.

Fixpoint fill_properties (a : animation) (initialValues : obj) (frame : num)
    (i : nat) (props : list string) (kfs : kfmap) : outcome kfmap :=
  match props with
  | [] => Done kfs
  | p :: props' =>
      bind (fill_property a initialValues frame i p kfs)
        (fill_properties a initialValues frame i props')
  end.

Fixpoint fill_frames (a : animation) (initialValues : obj)
    (props : list string) (frames : list num) (i : nat) (kfs : kfmap)
    : outcome kfmap :=
  match frames with
  | [] => Done kfs
  | frame :: frames' =>
      bind (fill_properties a initialValues frame i props kfs)
        (fill_frames a initialValues props frames' (S i))
  end.

Definition _fillInProperties (initialValues : obj) (a : animation)
    : outcome animation :=
  let properties := gather_properties (keys a) (keyframes a) in
  outcome_map (fun kfs => set_keyframes kfs a)
    (fill_frames a initialValues properties (keys a) 0 (keyframes a)).

(** *** [addSubject], [addSubjects], [removeSubject], [removeSubjects] *)

(** [subject.attr()] reads the attributes of the subject; the [strategy]
    argument is computed and never used. *)
Definition addSubject (s : nat) (a : animation) : outcome animation :=
  let initialAttributes :=
    mixin (heap_get (attrs a) s) (kf_at (keyframes a) (Fin 0)) in
  bind
    (if is_nil (subjects a) then _fillInProperties initialAttributes a
     else Done a)
    (fun a' =>
       Done (set_subjects
               (subjects a' ++ [mkBinding s (_createTweens initialAttributes a')])
               a')).

Fixpoint addSubjects (l : list nat) (a : animation) : outcome animation :=
  match l with
  | [] => Done a
  | s :: l' => bind (addSubject s a) (addSubjects l')
  end.

(** [this.subjects.splice(i, 1)] *)
Definition splice1 {A} (l : list A) (i : nat) : list A :=
  firstn i l ++ skipn (S i) l.

(** The loop of [removeSubject] from index [i], with [n] iterations left:
    the bound [l] is read once, before the loop.  The calls on the child
    animations act on those objects, not on this one. *)
Fixpoint removeSubject_loop (n i : nat) (s : nat) (a : animation)
    : outcome animation :=
  match n with
  | O => Done a
  | S n' =>
      match nth_error (subjects a) i with
      | None => Raised TypeError a
      | Some b =>
          if Nat.eqb (subject b) s then
            let a' := set_subjects (splice1 (subjects a) i) a in
            match animations a' with
            | None => Raised TypeError a'
            | Some _ => removeSubject_loop n' (S i) s a'
            end
          else removeSubject_loop n' (S i) s a
      end
  end.

Definition removeSubject (s : nat) (a : animation) : outcome animation :=
  removeSubject_loop (List.length (subjects a)) 0 s a.

Fixpoint removeSubjects (l : list nat) (a : animation) : outcome animation :=
  match l with
  | [] => Done a
  | s :: l' => bind (removeSubject s a) (removeSubjects l')
  end.

(** *** [play], [pause], [reset] *)

Fixpoint attr_all (bs : list binding) (values : obj) (h : heap) : heap :=
  match bs with
  | [] => h
  | b :: bs' => attr_all bs' values (attr_write h (subject b) values)
  end.

(** [play(subjects, strategy)]: both arguments are ignored, the local
    [subjects] is this animation's own list. *)
Definition play (a : animation) : animation :=
  if isPlaying a then a
  else
    let a1 := if num_eqb (frame a) (Fin 0) then emit "beforebegin" a else a in
    let a2 := emit "play" a1 in
    let a3 :=
      match kf_at (keyframes a2) (Fin 0) with
      | Some initial =>
          if Nat.eqb (currentTweenIndex a2) 0
          then set_attrs (attr_all (subjects a2) initial (attrs a2)) a2
          else a2
      | None => a2
      end in
    clock_on (set_isPlaying true a3).

Definition pause (a : animation) : animation :=
  set_isPlaying false (emit "pause" (clock_removeListener a)).

Definition reset (a : animation) : animation :=
  clock_removeListener
    (set_currentTweenIndex 0%nat (set_isPlaying false (set_frame (Fin 0) a))).

(** *** [step] *)

Definition phase_progress (t : tween) (progress : num) : num :=
  num_div (num_sub progress (startProgress t))
    (num_sub (endProgress t) (startProgress t)).

(** The loop over the subjects at the end of [step]. *)
Fixpoint apply_tweens (bs : list binding) (idx : nat)
    (thisPhaseProgress : num) (h : heap) : outcome heap :=
  match bs with
  | [] => Done h
  | b :: bs' =>
      match nth_error (tweens b) idx with
      | None => Raised TypeError h
      | Some currentSubjectTween =>
          apply_tweens bs' idx thisPhaseProgress
            (attr_write h (subject b)
               (tween_at (fromValues currentSubjectTween)
                  (toValues currentSubjectTween) None thisPhaseProgress))
      end
  end.

Definition call_depth_exceeded : error := Error "call depth".

(** [if (this.easing) { progress = this.easing(progress); }] *)
Definition eased (a : animation) (progress : num) : num :=
  match easing a with
  | Some f => f progress
  | None => progress
  end.

(** [step] calls itself after it moved to the next segment; [depth] bounds
    the number of nested calls. *)
Fixpoint step_rec (depth : nat) (realProgress : num) (a : animation)
    : outcome animation :=
  let progress := eased a realProgress in
  match subjects a with
  | [] => Raised TypeError a
  | first :: _ =>
      let tweensLength := List.length (tweens first) in
      match nth_error (tweens first) (currentTweenIndex a) with
      | None => Raised TypeError a
      | Some curTween =>
          let thisPhaseProgress := phase_progress curTween progress in
          if num_gt thisPhaseProgress (Fin 1)
             && (currentTweenIndex a + 1 <? tweensLength)%nat
          then
            match depth with
            | S depth' =>
                step_rec depth' realProgress
                  (set_currentTweenIndex (currentTweenIndex a + 1)%nat a)
            | O => Raised call_depth_exceeded a
            end
          else
            outcome_map (fun h => set_attrs h a)
              (apply_tweens (subjects a) (currentTweenIndex a)
                 thisPhaseProgress (attrs a))
      end
  end.

(** Every nested call moves one segment on, so the number of segments of
    the first subject bounds the depth. *)
Definition step (progress : num) (a : animation) : outcome animation :=
  step_rec
    (match subjects a with
     | first :: _ => List.length (tweens first)
     | [] => 0%nat
     end)
    progress a.

(** *** [onStep] *)

(** The block [onStep] runs when the timeline is finished or the frame
    counter has reached the duration; [this.repeat--] counts down also when
    the comparison fails. *)
Definition onStep_finish (a : animation) : animation :=
  let a := set_prevFrame (Fin 0) a in
  let a := set_currentDelay (delay a) a in
  let a := reset a in
  if num_eqb (repeat a) PInf then play a
  else
    let r := repeat a in
    let a := set_repeat (num_sub r (Fin 1)) a in
    if num_gt r (Fin 0) then play a else emit "end" a.

Definition onStep (frameNumber : num) (timelineIsFinished : bool)
    (a : animation) : outcome animation :=
  (* if (this.currentDelay > 0 && this.currentDelay--) return; *)
  let '(a, delayed) :=
    if num_gt (currentDelay a) (Fin 0)
    then (set_currentDelay (num_sub (currentDelay a) (Fin 1)) a,
          num_truthy (currentDelay a))
    else (a, false) in
  if delayed then Done a
  else
    let a := set_prevFrame
               (if num_truthy (prevFrame a) then prevFrame a else frameNumber)
               a in
    let duration_ := duration a in
    let frame_ :=
      if isTimelineBound a then
        let missing := num_sub frameNumber (prevFrame a) in
        num_add (frame a) (if num_truthy missing then missing else Fin 1)
      else num_add (frame a) (Fin 1) in
    let a := set_frame frame_ a in
    bind (step (num_div frame_ (to_number duration_)) a)
      (fun a =>
         if (isTimelineBound a && timelineIsFinished)
            || strict_eq (VNum frame_) duration_
         then Done (onStep_finish a)
         else Done (set_prevFrame frameNumber a)).

(** A signal of the clock reaches [onStep] while it is subscribed. *)
Definition clock_signal (frameNumber : num) (timelineIsFinished : bool)
    (a : animation) : outcome animation :=
  if listening a then onStep frameNumber timelineIsFinished a else Done a.

(** *** The constructor *)

Definition KeyframeAnimation (duration_ : value)
    (keyframes_ : list (string * obj)) (o : options) (h : heap)
    : outcome animation :=
  let d :=
    if num_truthy (to_number duration_) then to_number duration_
    else toFrameNumber duration_ in
  let repeat_ :=
    num_sub
      (to_number (js_or (opt_repeat o) (VNum (Fin 0))))
      (to_number
         (js_or (VNum (num_rem1 (to_number (opt_repeat o)))) (VNum (Fin 0)))) in
  let delay_ :=
    to_number
      (js_or (js_and (opt_delay o) (VNum (toFrameNumber (opt_delay o))))
         (VNum (Fin 0))) in
  let a :=
    mkAnimation (VNum d) [] [] [] None repeat_ delay_
      (negb (strict_eq (opt_isTimelineBound o) (VBool false)))
      (opt_easing o) (Fin 0) (Fin 0) delay_ 0%nat false false [] h in
  let (keyframesClean, a) := _convertKeysToFrames keyframes_ a in
  let a := set_keyframes keyframesClean a in
  (* for finite keys the sort makes the order of [Object.keys] immaterial *)
  let a := set_keys (sort_keys (map pkey_number (map fst keyframesClean))) a in
  match opt_subjects o with
  | Some l => addSubjects l a
  | None => Done a
  end.

End Methods.

(** Modelled from the spec: the interpolation primitive [PropertiesTween],
    which is not part of this file: given two value maps and a progress
    scalar it returns the interpolated map, here linearly on numbers, after
    the easing when one is given. *)
Definition lerp (f t : value) (p : num) : value :=
  VNum (num_add (to_number f)
          (num_mul (num_sub (to_number t) (to_number f)) p)).

Definition linear_at (from to : option obj) (easing_ : option (num -> num))
    (progress : num) : obj :=
  let p := match easing_ with Some f => f progress | None => progress end in
  match from, to with
  | Some f, Some t => map (fun kv => (fst kv, lerp (obj_get f (fst kv)) (snd kv) p)) t
  | _, _ => []
  end.

(** A clock that converts nothing: labels it is asked about have no frame. *)
Definition no_clock (v : value) : num := NaN.

(** A clock that is asked about frame counts only and returns them. *)
Definition frames_clock (v : value) : num :=
  match v with
  | VNum x => x
  | _ => NaN
  end.

Definition default_options : options :=
  mkOptions None None VUndefined VUndefined VUndefined.

(** ** The windows on binary64 numbers

    The numbers of the program are binary64 doubles, and every operation on
    them rounds.  This is the arithmetic of [_createTweens] once more, on
    doubles: the same loop over the sorted keys, with the values of the
    segments left out. *)

Module Binary64.

Import PrimFloat.

(** A whole frame number as a double (exact below 2^53). *)
Fixpoint of_positive (p : positive) : float :=
  match p with
  | xH => 1
  | xO p' => 2 * of_positive p'
  | xI p' => 2 * of_positive p' + 1
  end%float.

Definition frame (z : Z) : float :=
  match z with
  | Z0 => 0
  | Zpos p => of_positive p
  | Zneg p => - of_positive p
  end%float.

Definition createTweens_step (duration : float)
    (acc : float * list (float * float)) (key : float)
    : float * list (float * float) :=
  let '(totalDuration, tweens) := acc in
  if (key =? 0)%float then acc
  else
    let animationDuration := (key - totalDuration)%float in
    let startProgress := (totalDuration / duration)%float in
    let endProgress := (startProgress + animationDuration / duration)%float in
    ((totalDuration + animationDuration)%float,
     (tweens ++ [(startProgress, endProgress)])%list).

(** The windows [(startProgress, endProgress)] of the segments. *)
Definition _createTweens (duration : float) (keys : list float)
    : list (float * float) :=
  snd (fold_left (createTweens_step duration) keys (0%float, [])).



End Binary64.

(** ** Keyframes with their properties defined *)



(** The keyframe object [m'] holds the keyframes of [m] with the values of
    their properties. *)
Definition keeps (m m' : kfmap) : Prop :=
  forall k o, kf_get m k = Some o ->
    exists o', kf_get m' k = Some o'
               /\ forall p, obj_has o p = true ->
                    obj_has o' p = true /\ obj_get o' p = obj_get o p.

(** Every sorted key of [a] has a keyframe in [kfs]. *)
Definition complete (a : animation) (kfs : kfmap) : Prop :=
  Forall (fun k => kf_at kfs k <> None) (keys a).

(** ** Sorted frames and progress windows *)

(** [lo < k1 < k2 < ...] *)
Fixpoint ascending (lo : Q) (ks : list Q) : Prop :=
  match ks with
  | [] => True
  | k :: ks' => lo < k /\ ascending k ks'
  end.



(** ** Sequences of calls *)

Inductive call : Type :=
| CallPlay
| CallPause
| CallReset
| Signal (frameNumber : num) (timelineIsFinished : bool).

Section Calls.

Variable tween_at :
  option obj -> option obj -> option (num -> num) -> num -> obj.

Definition perform (c : call) (a : animation) : outcome animation :=
  match c with
  | CallPlay => Done (play a)
  | CallPause => Done (pause a)
  | CallReset => Done (reset a)
  | Signal frameNumber timelineIsFinished =>
      clock_signal tween_at frameNumber timelineIsFinished a
  end.

Fixpoint perform_all (cs : list call) (a : animation) : outcome animation :=
  match cs with
  | [] => Done a
  | c :: cs' => bind (perform c a) (perform_all cs')
  end.

End Calls.

(** [k] signals of a clock that counts its frames one by one from [f0] and
    whose timeline does not finish. *)
Definition signals (f0 : Z) (k : nat) : list call :=
  map (fun i => Signal (Fin (inject_Z (f0 + Z.of_nat i))) false) (seq 0 k).

(** The bindings [step] needs: a first subject, the current segment within
    its list, and as many segments for every other subject. *)
Definition segments_ok (a : animation) : Prop :=
  match subjects a with
  | [] => False
  | first :: _ =>
      (currentTweenIndex a < List.length (tweens first))%nat
      /\ Forall
           (fun b => List.length (tweens b) = List.length (tweens first))
           (subjects a)
  end.

(** The segments of the first subject after the current one. *)
Definition segments_left (a : animation) : nat :=
  match subjects a with
  | first :: _ => List.length (tweens first) - 1 - currentTweenIndex a
  | [] => 0
  end.

(** An animation of [n] frames with a delay of [d] frames that is playing:
    [j] frames of the current play-through are done, [c] signals of its delay
    are still to come, [r] repeats are left, [ev] was emitted so far and the
    next signal carries the frame number [f]. *)
Record playing (n d : nat) (r : num) (ev : list string) (j c : nat) (f : Z)
    (a : animation) : Prop := mkPlaying {
  playing_duration : duration a = VNum (Fin (inject_Z (Z.of_nat n)));
  playing_delay : delay a = Fin (inject_Z (Z.of_nat d));
  playing_repeat : num_equiv (repeat a) r;
  playing_emitted : emitted a = ev;
  playing_frame : exists q, frame a = Fin q /\ q == inject_Z (Z.of_nat j);
  playing_prevFrame :
    exists q, prevFrame a = Fin q
              /\ (q == 0 \/ (c = 0%nat /\ q == inject_Z (f - 1)));
  playing_currentDelay :
    exists q, currentDelay a = Fin q /\ q == inject_Z (Z.of_nat c);
  playing_segments : segments_ok a;
  playing_listening : listening a = true;
  playing_isPlaying : isPlaying a = true
}.

(** The events of [m] restarts. *)
Definition restarts (m : nat) : list string :=
  List.concat (List.repeat ["beforebegin"; "play"]%string m).

(** How often an event was emitted. *)
Definition count_event (name : string) (a : animation) : nat :=
  count_occ string_dec (emitted a) name.

(** ** Shapes of states *)

(** The state [onStep] hands to [step]: delay counter [c], previous frame
    [P], frame counter [F]. *)
Definition advanced (c P F : num) (a : animation) : animation :=
  set_frame F (set_prevFrame P (set_currentDelay c a)).

(** The state [step] leaves: current segment [i], attributes [h]. *)
Definition stepped (i : nat) (h : heap) (a : animation) : animation :=
  set_attrs h (set_currentTweenIndex i a).

(** The frame counter after a signal that is not taken by the delay. *)
Definition next_frame (frameNumber : num) (a : animation) : num :=
  let P := if num_truthy (prevFrame a) then prevFrame a else frameNumber in
  if isTimelineBound a
  then num_add (frame a)
         (if num_truthy (num_sub frameNumber P)
          then num_sub frameNumber P else Fin 1)
  else num_add (frame a) (Fin 1).

(** Signals with the frame numbers [fs], the timeline not finished. *)
Definition signals_at (fs : list Q) : list call :=
  map (fun f => Signal (Fin f) false) fs.

(** ** Sorted keys *)

Definition num_finite (n : num) : bool :=
  match n with Fin _ => true | _ => false end.

(** No key is greater than the one after it. *)
Fixpoint in_order (ks : list num) : Prop :=
  match ks with
  | x :: (y :: _) as rest => num_gt x y = false /\ in_order rest
  | _ => True
  end.

(** ** The segment [step] settles on *)

(** The progress [p], eased, lies behind the window of segment [j] of the
    first subject: [thisPhaseProgress > 1]. *)
Definition exceeded (a : animation) (p : num) (j : nat) : bool :=
  match subjects a with
  | first :: _ =>
      match nth_error (tweens first) j with
      | Some t => num_gt (phase_progress t (eased a p)) (Fin 1)
      | None => false
      end
  | [] => false
  end.

(** Segment [j] is the last one of the first subject. *)
Definition is_last_segment (a : animation) (j : nat) : bool :=
  match subjects a with
  | first :: _ => (List.length (tweens first) =? j + 1)%nat
  | [] => false
  end.

(** ** Segments and construction *)

(** The progress window of a segment. *)
Definition window (t : tween) : num * num :=
  (startProgress t, endProgress t).

(** The number of keys other than 0. *)
Definition segment_count (ks : list num) : nat :=
  List.length (filter (fun k => negb (num_eqb k (Fin 0))) ks).

(** All bindings have the windows [_createTweens] gives now. *)
Definition shared_windows (a : animation) : Prop :=
  Forall
    (fun b => map window (tweens b) = map window (_createTweens [] a))
    (subjects a).

(** The animation the constructor has built when it turns to
    [options.subjects]. *)
Definition before_subjects (toFrameNumber : value -> num) (duration_ : value)
    (keyframes_ : list (string * obj)) (o : options) (h : heap) : animation :=
  state_of
    (KeyframeAnimation toFrameNumber (fun _ _ _ _ => []) duration_ keyframes_
       (mkOptions (opt_easing o) None (opt_delay o) (opt_repeat o)
          (opt_isTimelineBound o))
       h).

(** ** Concrete animations *)

Module Scenario.

Local Open Scope string_scope.

Definition vnum (q : Q) : value := VNum (Fin q).

(** Free-running, no easing, no delay, no repeat, bound to the subjects
    [l]. *)
Definition free_running (l : list nat) : options :=
  mkOptions None (Some l) VUndefined VUndefined (VBool false).

Definition construct (duration_ : Q) (keyframes_ : list (string * obj))
    (o : options) (h : heap) : outcome animation :=
  KeyframeAnimation no_clock linear_at (vnum duration_) keyframes_ o h.

(** [new KeyframeAnimation(clock, 5, {9: {x: 1}, 10: {x: 2}})] *)
Definition widened : outcome animation :=
  construct 5 [("9", [("x", vnum 1)]); ("10", [("x", vnum 2)])] default_options [].

(** [{5: {x: 0}, 10: {y: 1}}] over 10 frames, on a subject that has a [y]
    and no [x]. *)
Definition zero_then_missing
    (tween_at : option obj -> option obj -> option (num -> num) -> num -> obj)
    : outcome animation :=
  KeyframeAnimation no_clock tween_at (vnum 10)
    [("5", [("x", vnum 0)]); ("10", [("y", vnum 1)])]
    (free_running [1%nat]) [(1%nat, [("y", vnum 3)])].

(** [{5: {x: 0}, 10: {y: 10}, 20: {x: 20}}] over 20 frames, on a subject
    with [x = 7] and [y = 0]. *)
Definition zero_then_gap
    (tween_at : option obj -> option obj -> option (num -> num) -> num -> obj)
    : outcome animation :=
  KeyframeAnimation no_clock tween_at (vnum 20)
    [("5", [("x", vnum 0)]); ("10", [("y", vnum 10)]); ("20", [("x", vnum 20)])]
    (free_running [1%nat]) [(1%nat, [("x", vnum 7); ("y", vnum 0)])].


(** [{0: {x: 0}, 5: {x: 50}, 10: {x: 100}}] over 10 frames. *)
Definition three_keys (o : options) : outcome animation :=
  construct 10
    [("0", [("x", vnum 0)]); ("5", [("x", vnum 50)]); ("10", [("x", vnum 100)])]
    o [(1%nat, [("x", vnum 7)]); (2%nat, [("x", vnum 9)])].

(** [{5: {x: 50}, 10: {x: 100}, "10.0": {x: 0}}] over 10 frames: the labels
    [10] and [10.0] give the sorted keys [5, 10, 10], and the last segment
    has no length. *)
Definition doubled_key : outcome animation :=
  construct 10
    [("5", [("x", vnum 50)]); ("10", [("x", vnum 100)]); ("10.0", [("x", vnum 0)])]
    (free_running [1%nat]) [(1%nat, [("x", vnum 7)])].


Definition three_keys_state : animation :=
  Eval vm_compute in state_of (three_keys (free_running [1; 2]%nat)).

(** 5 frames after a delay of 3 frames, [repeat_] repeats, timeline-bound
    as by default, after [play()]. *)
Definition delayed (repeat_ : Q) : outcome animation :=
  bind
    (KeyframeAnimation frames_clock linear_at (vnum 5)
       [("0", [("x", vnum 0)]); ("5", [("x", vnum 50)])]
       (mkOptions None (Some [1%nat]) (vnum 3) (vnum repeat_) VUndefined)
       [(1%nat, [("x", vnum 7)])])
    (fun a => Done (play a)).

Definition delayed_once : animation :=
  Eval vm_compute in state_of (delayed 0).

Definition delayed_thrice : animation :=
  Eval vm_compute in state_of (delayed 2).

(** [doubled_key] after [step(1.1)]: the segment without length is the
    active one. *)
Definition past_the_end : animation :=
  Eval vm_compute in
    state_of (bind doubled_key (step linear_at (Fin (11 # 10)))).

(** An animation whose [animations] field was set to an empty array from
    outside. *)
Definition with_children (a : animation) : animation :=
  mkAnimation (duration a) (keyframes a) (keys a) (subjects a) (Some [])
    (repeat a) (delay a) (isTimelineBound a) (easing a) (prevFrame a)
    (frame a) (currentDelay a) (currentTweenIndex a) (isPlaying a)
    (listening a) (emitted a) (attrs a).

(** [{5: {x: 0}, 10: {y: 10}, 20: {x: 20}}] over 20 frames and a subject
    with [x = 7] and [y = 3]: before the subject is bound, and after. *)
Definition gap_initial : obj := [("x", vnum 7); ("y", vnum 3)].

Definition gap_unfilled : animation :=
  Eval vm_compute in
    before_subjects no_clock (vnum 20)
      [("5", [("x", vnum 0)]); ("10", [("y", vnum 10)]); ("20", [("x", vnum 20)])]
      default_options [(1%nat, gap_initial)].


(** [three_keys], timeline-bound as by default, after [play()]. *)
Definition timeline_bound : animation :=
  Eval vm_compute in
    state_of
      (bind
         (three_keys
            (mkOptions None (Some [1; 2]%nat) VUndefined VUndefined VUndefined))
         (fun a => Done (play a))).

(** [timeline_bound] after the clock signalled frame 1 and then frame 20:
    the frame counter has skipped over the duration. *)
Definition overshot : animation :=
  Eval vm_compute in
    state_of
      (perform_all linear_at [Signal (Fin 1) false; Signal (Fin 20) false]
         timeline_bound).

(** [{9: {x: 1}, 10: {x: 2}}] with a declared duration of 5, free-running,
    after [play()]: the duration is the string ["9"]. *)
Definition string_duration : animation :=
  Eval vm_compute in
    state_of
      (bind
         (construct 5 [("9", [("x", vnum 1)]); ("10", [("x", vnum 2)])]
            (free_running [1%nat]) [(1%nat, [("x", vnum 7)])])
         (fun a => Done (play a))).

(** The first binding of [three_keys_state]. *)
Definition first_binding : binding :=
  Eval vm_compute in hd (mkBinding 0 []) (subjects three_keys_state).

End Scenario.

(** ** The key normaliser *)

Module Normaliser.

Import Scenario.
Local Open Scope string_scope.

(** [_convertKeysToFrames] leaves the duration as it is or replaces it by a
    frame that compares greater. *)
Lemma convertKeysToFrames_never_shrinks (toFrameNumber : value -> num)
    (entries : list (string * obj)) (a : animation) :
  let a' := snd (_convertKeysToFrames toFrameNumber entries a) in
  duration a' = duration a \/ js_gt (duration a') (duration a) = true.
Proof.
  unfold _convertKeysToFrames.
  destruct (convert_loop toFrameNumber (duration a) entries [] (VNum (Fin 0)))
    as [clean maxFrame].
  simpl. destruct (js_gt maxFrame (duration a)) eqn:E; [right|left].
  - exact E.
  - reflexivity.
Qed.

(** C3, on the code: a numeric label stays a string, so from the second
    numeric label on [frame > maxFrame] compares two strings.  With
    [{9: ..., 10: ...}] and a declared duration of 5, ["10" > "9"] is false,
    the maximum stays ["9"] and the duration becomes the string ["9"], below
    the resolved frame 10 that the sorted keys hold. *)
Theorem convertKeysToFrames_compares_labels_as_strings :
  raised widened = None
  /\ duration (state_of widened) = VStr "9"
  /\ keys (state_of widened) = [Fin 9; Fin 10]
  /\ js_gt (VStr "10") (VStr "9") = false
  /\ num_gt (Fin 10) (to_number (duration (state_of widened))) = true.
Proof. vm_compute. repeat split. Qed.

End Normaliser.

(** ** The gap filler *)

Module GapFiller.

Import Scenario.
Local Open Scope string_scope.


Lemma pkey_eqb_sym (k k' : pkey) : pkey_eqb k k' = pkey_eqb k' k.
Proof.
  destruct k as [[q| | |]|s], k' as [[q'| | |]|s']; simpl; try reflexivity.
  - destruct (Qeq_bool q q') eqn:E, (Qeq_bool q' q) eqn:E'; try reflexivity.
    + apply Qeq_bool_iff in E.
      assert (Qeq_bool q' q = true) by (apply Qeq_bool_iff; lra). congruence.
    + apply Qeq_bool_iff in E'.
      assert (Qeq_bool q q' = true) by (apply Qeq_bool_iff; lra). congruence.
  - apply String.eqb_sym.
Qed.

Lemma pkey_eqb_trans (k1 k2 k3 : pkey) :
  pkey_eqb k1 k2 = true -> pkey_eqb k2 k3 = true -> pkey_eqb k1 k3 = true.
Proof.
  destruct k1 as [[q1| | |]|s1], k2 as [[q2| | |]|s2], k3 as [[q3| | |]|s3];
    simpl; try discriminate; try reflexivity.
  - intros H1 H2. apply Qeq_bool_iff in H1. apply Qeq_bool_iff in H2.
    apply Qeq_bool_iff. lra.
  - intros H1 H2. apply String.eqb_eq in H1. apply String.eqb_eq in H2.
    apply String.eqb_eq. congruence.
Qed.

Lemma kf_get_equiv (m : kfmap) (k k' : pkey) :
  pkey_eqb k k' = true -> kf_get m k = kf_get m k'.
Proof.
  intros E. induction m as [|[k1 o1] m IH]; [reflexivity|]. simpl.
  destruct (pkey_eqb k1 k) eqn:E1.
  - rewrite (pkey_eqb_trans _ _ _ E1 E). reflexivity.
  - destruct (pkey_eqb k1 k') eqn:E2; [|exact IH].
    rewrite pkey_eqb_sym in E.
    rewrite (pkey_eqb_trans _ _ _ E2 E) in E1. discriminate.
Qed.

Lemma kf_get_set (m : kfmap) (k : pkey) (o : obj) (k' : pkey) :
  kf_get (kf_set m k o) k'
  = if pkey_eqb k k' then Some o else kf_get m k'.
Proof.
  induction m as [|[k1 o1] m IH]; [reflexivity|]. simpl.
  destruct (pkey_eqb k1 k) eqn:E1; simpl.
  - destruct (pkey_eqb k k') eqn:E.
    + rewrite (pkey_eqb_trans _ _ _ E1 E). reflexivity.
    + destruct (pkey_eqb k1 k') eqn:E2; [|reflexivity].
      rewrite pkey_eqb_sym in E1.
      rewrite (pkey_eqb_trans _ _ _ E1 E2) in E. discriminate.
  - rewrite IH. destruct (pkey_eqb k1 k') eqn:E2; [|reflexivity].
    destruct (pkey_eqb k k') eqn:E; [|reflexivity].
    rewrite pkey_eqb_sym in E.
    rewrite (pkey_eqb_trans _ _ _ E2 E) in E1. discriminate.
Qed.

Lemma obj_has_set (o : obj) (p : string) (v : value) (q : string) :
  obj_has (obj_set o p v) q = obj_has o q || String.eqb p q.
Proof.
  induction o as [|[k w] o IH]; simpl.
  - rewrite orb_false_r. reflexivity.
  - destruct (String.eqb_spec k p) as [E|Hne]; simpl.
    + rewrite E. destruct (String.eqb p q); simpl; [reflexivity|].
      rewrite orb_false_r. reflexivity.
    + rewrite IH, orb_assoc. reflexivity.
Qed.




Section Fill.

Variable tween_at :
  option obj -> option obj -> option (num -> num) -> num -> obj.
Variable a : animation.
Variable initialValues : obj.





End Fill.

(** C4, on the code: [prevFrame && keyframes[prevFrame][p] ||
    initialValues[p]] passes over a backward value that is falsy.  The
    keyframe at 5 defines [x = 0]; at frame 10 the filler takes the initial
    value instead, finds none and throws, whatever the interpolation
    primitive. *)
Theorem fillInProperties_throws_on_zero_backward_value
    (tween_at : option obj -> option obj -> option (num -> num) -> num -> obj) :
  raised (zero_then_missing tween_at)
    = Some (Error "No initial value specified for property: x")
  /\ option_map (fun k => obj_has k "x")
       (kf_at (keyframes (state_of (zero_then_missing tween_at))) (Fin 5))
     = Some true
  /\ option_map (fun k => obj_get k "x")
       (kf_at (keyframes (state_of (zero_then_missing tween_at))) (Fin 5))
     = Some (vnum 0).
Proof. vm_compute. repeat split. Qed.

(** C2, on the code: the same expression makes the filler interpolate from
    the initial value.  [x] is missing at frame 10, between [x = 0] at frame
    5 and [x = 20] at frame 20; the filler hands the primitive the initial
    [x = 7] as start value, at the progress (10 - 5) / (20 - 5).  With linear
    interpolation the value written is 34/3, a third of the way from 7 to 20,
    and not 20/3, a third of the way from 0 to 20. *)
Theorem fillInProperties_interpolates_from_initial_value
    (tween_at : option obj -> option obj -> option (num -> num) -> num -> obj) :
  let filled tw :=
    option_map (fun k => obj_get k "x")
      (kf_at (keyframes (state_of (zero_then_gap tw))) (Fin 10)) in
  raised (zero_then_gap tween_at) = None
  /\ filled tween_at
     = Some (obj_get
               (tween_at (Some [("x", vnum 7)]) (Some [("x", vnum 20)]) None
                  (Fin (5 # 15))) "x")
  /\ option_map (strict_eq (lerp (vnum 7) (vnum 20) (Fin (1 # 3))))
       (filled linear_at) = Some true
  /\ option_map (strict_eq (lerp (vnum 0) (vnum 20) (Fin (1 # 3))))
       (filled linear_at) = Some false.
Proof.
  intros filled. split; [vm_compute; reflexivity|].
  split; [lazy; reflexivity|].
  split; vm_compute; reflexivity.
Qed.

End GapFiller.

(** ** Subject bindings *)

Module Bindings.

Import Scenario.

Lemma removeSubject_loop_absent (i : nat) (s : nat) (a : animation) :
  Forall (fun b => subject b <> s) (skipn i (subjects a)) ->
  removeSubject_loop (List.length (subjects a) - i) i s a = Done a.
Proof.
  remember (List.length (subjects a) - i)%nat as k eqn:Hk.
  revert i Hk. induction k as [|k IH]; intros i Hk Hall; [reflexivity|].
  simpl. destruct (nth_error (subjects a) i) as [b|] eqn:Hb.
  - destruct (nth_error_split _ _ Hb) as (l1 & l2 & Hs & Hl).
    assert (Hsk : skipn i (subjects a) = b :: l2).
    { rewrite Hs, <- Hl, skipn_app, skipn_all, Nat.sub_diag. reflexivity. }
    rewrite Hsk in Hall. inversion Hall as [|b' l' Hne Hrest [Eb El]].
    destruct (Nat.eqb_spec (subject b) s) as [E|_]; [contradiction|].
    apply IH; [lia|].
    replace (S i) with (1 + i)%nat by lia.
    rewrite <- skipn_skipn, Hsk. exact Hrest.
  - apply nth_error_None in Hb. lia.
Qed.

(** When no binding holds the subject, [removeSubject] returns and changes
    nothing. *)
Lemma removeSubject_absent (s : nat) (a : animation) :
  Forall (fun b => subject b <> s) (subjects a) ->
  removeSubject s a = Done a.
Proof.
  intros H. unfold removeSubject.
  rewrite <- (Nat.sub_0_r (List.length (subjects a))).
  apply removeSubject_loop_absent. exact H.
Qed.

(** C9, on the code: after the splice [removeSubject] reads
    [this.animations.length], and no code of the file assigns
    [this.animations]: removing a bound subject throws once the binding is
    gone.  Where the field was set from outside, the loop still runs to the
    length read before the splice and reads past the end of the array. *)
Theorem removeSubject_throws_when_bound :
  let a := state_of (three_keys (free_running [1; 2]%nat)) in
  raised (three_keys (free_running [1; 2]%nat)) = None
  /\ map subject (subjects a) = [1; 2]%nat
  /\ raised (removeSubject 1 a) = Some TypeError
  /\ map subject (subjects (state_of (removeSubject 1 a))) = [2]%nat
  /\ raised (removeSubject 1 (with_children a)) = Some TypeError.
Proof. vm_compute. repeat split. Qed.

End Bindings.

(** ** The segment builder *)

Module Segments.

Import Scenario.
Local Open Scope string_scope.

Section Windows.

Variable a : animation.

Lemma createTweens_loop_app (ks : list num) (T : num) (prev : option obj)
    (acc : list tween) :
  createTweens_loop a ks (T, prev, acc)
  = (fst (createTweens_loop a ks (T, prev, [])), (acc ++ snd (createTweens_loop a ks (T, prev, [])))%list).
Proof.
  revert T prev acc. induction ks as [|k ks IH]; intros T prev acc.
  - simpl. rewrite app_nil_r. reflexivity.
  - unfold createTweens_loop in *. simpl fold_left.
    destruct (num_eqb k (Fin 0)).
    + apply IH.
    + rewrite IH. rewrite (IH _ _ [_]). simpl.
      rewrite <- app_assoc. reflexivity.
Qed.

Lemma createTweens_loop_length (ks : list num) (T : num) (prev : option obj) :
  List.length (snd (createTweens_loop a ks (T, prev, [])))
  = List.length (filter (fun k => negb (num_eqb k (Fin 0))) ks).
Proof.
  revert T prev. induction ks as [|k ks IH]; intros T prev; [reflexivity|].
  unfold createTweens_loop in *. simpl fold_left.
  simpl filter. destruct (num_eqb k (Fin 0)); simpl negb; cbv iota.
  - apply IH.
  - change (fold_left (createTweens_step a) ks) with (createTweens_loop a ks). rewrite createTweens_loop_app. simpl. f_equal. apply IH.
Qed.

(** The frame-0 keyframe yields no segment, every other key yields one. *)
Lemma createTweens_length (startValues : obj) :
  List.length (_createTweens startValues a)
  = List.length (filter (fun k => negb (num_eqb k (Fin 0))) (keys a)).
Proof. apply createTweens_loop_length. Qed.

Variable D : Q.
Hypothesis duration_is_D : to_number (duration a) = Fin D.
Hypothesis D_positive : 0 < D.









End Windows.




End Segments.

(** ** Playback *)

Module Playback.

Import Scenario.
Local Open Scope string_scope.

Section WithTween.

Variable tween_at :
  option obj -> option obj -> option (num -> num) -> num -> obj.

(** C10: [step] reads [this.subjects[0].tweens] before anything else, so
    with no subject bound it throws a [TypeError] for every progress, and so
    does every clock signal that is not taken by the delay. *)
Theorem step_without_subjects (progress : num) (a : animation) :
  subjects a = [] ->
  step tween_at progress a = Raised TypeError a
  /\ forall frameNumber finished,
       num_gt (currentDelay a) (Fin 0) = false ->
       raised (onStep tween_at frameNumber finished a) = Some TypeError.
Proof.
  intros H. split.
  - unfold step. rewrite H. simpl. rewrite H. reflexivity.
  - intros fn fin Hd. unfold onStep. rewrite Hd.
    unfold step. simpl. rewrite H. simpl. rewrite H. reflexivity.
Qed.

(** C8, amended: a [play()] call while playing changes nothing; every other
    [play()] call emits [play], and before it [beforebegin] whenever the
    frame counter is 0, whether or not it was emitted before. *)
Theorem play_notifications (a : animation) :
  if isPlaying a then play a = a
  else emitted (play a)
       = (emitted a
          ++ (if num_eqb (frame a) (Fin 0) then ["beforebegin"] else [])
          ++ ["play"])%list
       /\ isPlaying (play a) = true.
Proof.
  unfold play. destruct (isPlaying a); [reflexivity|].
  destruct (num_eqb (frame a) (Fin 0)); simpl;
    destruct (kf_at _ _); try destruct (Nat.eqb _ _); simpl;
    rewrite <- ?app_assoc; split; reflexivity.
Qed.

(** *** The nested calls of [step] *)

Lemma step_rec_eq (depth : nat) (realProgress : num) (a : animation) :
  step_rec tween_at depth realProgress a =
  match subjects a with
  | [] => Raised TypeError a
  | first :: _ =>
      match nth_error (tweens first) (currentTweenIndex a) with
      | None => Raised TypeError a
      | Some curTween =>
          let thisPhaseProgress :=
            phase_progress curTween (eased a realProgress) in
          if num_gt thisPhaseProgress (Fin 1)
             && (currentTweenIndex a + 1 <? List.length (tweens first))%nat
          then
            match depth with
            | S depth' =>
                step_rec tween_at depth' realProgress
                  (set_currentTweenIndex (currentTweenIndex a + 1)%nat a)
            | O => Raised call_depth_exceeded a
            end
          else
            outcome_map (fun h => set_attrs h a)
              (apply_tweens tween_at (subjects a) (currentTweenIndex a)
                 thisPhaseProgress (attrs a))
      end
  end.
Proof. destruct depth; reflexivity. Qed.

Lemma step_rec_depth (d d' : nat) (p : num) (a : animation) :
  (segments_left a <= d)%nat -> (segments_left a <= d')%nat ->
  step_rec tween_at d p a = step_rec tween_at d' p a.
Proof.
  revert d' a. induction d as [|d IH]; intros d' a Hd Hd';
    rewrite (step_rec_eq _ p a), (step_rec_eq d' p a);
    unfold segments_left in Hd, Hd';
    destruct (subjects a) as [|first rest] eqn:Hs; try reflexivity;
    destruct (nth_error (tweens first) (currentTweenIndex a)); try reflexivity;
    cbv zeta; destruct (num_gt _ _); try reflexivity; simpl andb;
    destruct (Nat.ltb_spec (currentTweenIndex a + 1) (List.length (tweens first)));
    try reflexivity.
  - lia.
  - destruct d' as [|d']; [lia|].
    apply IH; unfold segments_left; simpl; rewrite Hs; simpl; lia.
Qed.

Lemma raised_outcome_map {A B} (g : A -> B) (m : outcome A) :
  raised (outcome_map g m) = raised m.
Proof. destruct m; reflexivity. Qed.

Lemma apply_tweens_raises (bs : list binding) (idx : nat) (ph : num)
    (h : heap) :
  raised (apply_tweens tween_at bs idx ph h) <> Some call_depth_exceeded.
Proof.
  revert h. induction bs as [|b bs IH]; intros h; simpl; [discriminate|].
  destruct (nth_error (tweens b) idx); [apply IH|discriminate].
Qed.

(** [step] returns or throws a [TypeError]: the bound on the nested calls
    is never reached. *)
Lemma step_rec_within_depth (d : nat) (p : num) (a : animation) :
  (segments_left a <= d)%nat ->
  raised (step_rec tween_at d p a) <> Some call_depth_exceeded.
Proof.
  revert a. induction d as [|d IH]; intros a Hd; rewrite step_rec_eq;
    unfold segments_left in Hd;
    destruct (subjects a) as [|first rest] eqn:Hs; try discriminate;
    destruct (nth_error (tweens first) (currentTweenIndex a)); try discriminate;
    cbv zeta; destruct (num_gt _ _); simpl andb;
    try destruct (Nat.ltb_spec (currentTweenIndex a + 1) (List.length (tweens first)));
    try (rewrite raised_outcome_map; apply apply_tweens_raises).
  - lia.
  - apply IH. unfold segments_left. simpl. rewrite Hs. simpl. lia.
Qed.

Lemma step_within_depth (p : num) (a : animation) :
  raised (step tween_at p a) <> Some call_depth_exceeded.
Proof.
  unfold step. apply step_rec_within_depth. unfold segments_left.
  destruct (subjects a); lia.
Qed.

(** One call of [step], the nested call folded back into [step]. *)
Lemma step_eq (p : num) (a : animation) :
  step tween_at p a =
  match subjects a with
  | [] => Raised TypeError a
  | first :: _ =>
      match nth_error (tweens first) (currentTweenIndex a) with
      | None => Raised TypeError a
      | Some curTween =>
          let thisPhaseProgress := phase_progress curTween (eased a p) in
          if num_gt thisPhaseProgress (Fin 1)
             && (currentTweenIndex a + 1 <? List.length (tweens first))%nat
          then
            step tween_at p
              (set_currentTweenIndex (currentTweenIndex a + 1)%nat a)
          else
            outcome_map (fun h => set_attrs h a)
              (apply_tweens tween_at (subjects a) (currentTweenIndex a)
                 thisPhaseProgress (attrs a))
      end
  end.
Proof.
  unfold step at 1. rewrite step_rec_eq.
  destruct (subjects a) as [|first rest] eqn:Hs; [reflexivity|].
  destruct (nth_error (tweens first) (currentTweenIndex a)) eqn:Hn;
    [|reflexivity].
  cbv zeta. destruct (num_gt _ _); [|reflexivity]. simpl andb.
  destruct (Nat.ltb_spec (currentTweenIndex a + 1) (List.length (tweens first)));
    [|reflexivity].
  destruct (List.length (tweens first)) as [|L] eqn:HL; [lia|].
  unfold step. simpl subjects. rewrite Hs, HL.
  apply step_rec_depth; unfold segments_left; simpl; rewrite Hs; simpl; lia.
Qed.

(** *** [step] on well-formed bindings *)

Lemma apply_tweens_ok (bs : list binding) (idx : nat) (ph : num) (h : heap) :
  Forall (fun b => (idx < List.length (tweens b))%nat) bs ->
  exists h', apply_tweens tween_at bs idx ph h = Done h'.
Proof.
  revert h. induction bs as [|b bs IH]; intros h Hall; simpl.
  - exists h. reflexivity.
  - inversion Hall as [|b' bs' Hb Hbs [Eb Ebs]].
    destruct (nth_error (tweens b) idx) eqn:E.
    + apply IH. exact Hbs.
    + apply nth_error_None in E. lia.
Qed.

Lemma step_rec_ok (d : nat) (p : num) (a : animation) :
  segments_ok a -> (segments_left a <= d)%nat ->
  exists i h,
    step_rec tween_at d p a = Done (set_attrs h (set_currentTweenIndex i a))
    /\ segments_ok (set_attrs h (set_currentTweenIndex i a)).
Proof.
  revert a. induction d as [|d IH]; intros a Hok Hd; rewrite step_rec_eq;
    unfold segments_ok in Hok; unfold segments_left in Hd;
    destruct (subjects a) as [|first rest] eqn:Hs; try contradiction;
    destruct Hok as [Hi Hall];
    (destruct (nth_error (tweens first) (currentTweenIndex a)) eqn:Hn;
     [|apply nth_error_None in Hn; lia]);
    cbv zeta;
    (destruct (num_gt _ _ && (currentTweenIndex a + 1 <? _)%nat) eqn:Hb;
     [apply andb_prop in Hb; destruct Hb as [_ Hb];
      apply Nat.ltb_lt in Hb
     |clear Hb;
      destruct (apply_tweens_ok (first :: rest) (currentTweenIndex a)
                  (phase_progress t (eased a p)) (attrs a)) as [h Hh];
      [eapply Forall_impl; [|exact Hall]; simpl; intros b Hb'; lia|];
      rewrite Hh; exists (currentTweenIndex a), h; split;
      [destruct a; reflexivity
      |unfold segments_ok; simpl; rewrite Hs; split; assumption]]).
  - lia.
  - destruct (IH (set_currentTweenIndex (currentTweenIndex a + 1)%nat a))
      as (i & h & Hstep & Hok').
    + unfold segments_ok. simpl. rewrite Hs. split; assumption.
    + unfold segments_left. simpl. rewrite Hs. lia.
    + exists i, h. split; [exact Hstep|exact Hok'].
Qed.

(** With well-formed bindings [step] returns; it changes the current segment
    and the attributes of the subjects, nothing else. *)
Lemma step_ok (p : num) (a : animation) :
  segments_ok a ->
  exists i h,
    step tween_at p a = Done (set_attrs h (set_currentTweenIndex i a))
    /\ segments_ok (set_attrs h (set_currentTweenIndex i a)).
Proof.
  intros Hok. unfold step. apply step_rec_ok; [exact Hok|].
  unfold segments_left. destruct (subjects a); lia.
Qed.

(** *** One signal *)

Lemma num_gt_0_truthy (x : num) :
  num_gt x (Fin 0) = true -> num_truthy x = true.
Proof.
  destruct x as [q| | |]; simpl; try discriminate; try reflexivity.
  intros H. apply negb_true_iff in H. apply negb_true_iff.
  destruct (Qeq_bool q 0) eqn:E; [|reflexivity].
  apply Qeq_bool_iff in E.
  assert (Qle_bool q 0 = true) by (apply Qle_bool_iff; lra). congruence.
Qed.

Lemma Qeq_bool_false (x y : Q) : ~ x == y -> Qeq_bool x y = false.
Proof.
  intros H. destruct (Qeq_bool x y) eqn:E; [|reflexivity].
  apply Qeq_bool_iff in E. contradiction.
Qed.

Lemma Qeq_bool_true (x y : Q) : x == y -> Qeq_bool x y = true.
Proof. apply Qeq_bool_iff. Qed.

Lemma Qle_bool_false (x y : Q) : y < x -> Qle_bool x y = false.
Proof.
  intros H. destruct (Qle_bool x y) eqn:E; [|reflexivity].
  apply Qle_bool_iff in E. lra.
Qed.

(** A signal while the delay counter is positive takes one off the counter
    and does nothing else. *)
Lemma onStep_delayed (frameNumber : num) (finished : bool) (a : animation) :
  num_gt (currentDelay a) (Fin 0) = true ->
  onStep tween_at frameNumber finished a
  = Done (set_currentDelay (num_sub (currentDelay a) (Fin 1)) a).
Proof.
  intros H. unfold onStep. rewrite H, (num_gt_0_truthy _ H). reflexivity.
Qed.

(** A signal with the next frame number, the delay being over: the frame
    counter goes up by one, [step] runs, and the play-through finishes when
    the counter equals the duration. *)
Lemma onStep_advance (f : Z) (a : animation) (cq fq pq Dq : Q) :
  currentDelay a = Fin cq -> cq == 0 ->
  frame a = Fin fq ->
  prevFrame a = Fin pq -> (pq == 0 \/ pq == inject_Z (f - 1)) ->
  duration a = VNum (Fin Dq) ->
  segments_ok a ->
  exists i h F P,
    F == fq + 1
    /\ segments_ok
         (set_attrs h (set_currentTweenIndex i
            (set_frame (Fin F) (set_prevFrame P a))))
    /\ onStep tween_at (Fin (inject_Z f)) false a
       = if Qeq_bool F Dq
         then Done (onStep_finish
                      (set_attrs h (set_currentTweenIndex i
                         (set_frame (Fin F) (set_prevFrame P a)))))
         else Done (set_prevFrame (Fin (inject_Z f))
                      (set_attrs h (set_currentTweenIndex i
                         (set_frame (Fin F) (set_prevFrame P a))))).
Proof.
  intros Hcd Hc Hf Hp Hpq HD Hok.
  unfold onStep. rewrite Hcd. simpl num_gt.
  rewrite (proj2 (Qle_bool_iff cq 0)) by lra. simpl negb. cbv iota beta.
  set (P := if num_truthy (prevFrame a) then prevFrame a
            else Fin (inject_Z f)).
  cbn [isTimelineBound frame prevFrame duration set_prevFrame].
  assert (HP : exists pv, P = Fin pv
                 /\ (pv == inject_Z f \/ pv == inject_Z f - 1)).
  { subst P. rewrite Hp. simpl num_truthy.
    destruct (Qeq_bool pq 0) eqn:E; simpl negb; cbv iota.
    - exists (inject_Z f). split; [reflexivity|left; reflexivity].
    - exists pq. split; [reflexivity|].
      destruct Hpq as [H0|H1].
      + apply Qeq_bool_iff in H0. congruence.
      + right. rewrite H1. unfold Z.sub.
        rewrite inject_Z_plus, inject_Z_opp. reflexivity. }
  destruct HP as (pv & HPv & Hpv).
  assert (HF : exists F, F == fq + 1
                 /\ (if isTimelineBound a
                     then num_add (frame a)
                            (if num_truthy (num_sub (Fin (inject_Z f)) P)
                             then num_sub (Fin (inject_Z f)) P
                             else Fin 1)
                     else num_add (frame a) (Fin 1)) = Fin F).
  { rewrite Hf, HPv. simpl num_sub. simpl num_truthy.
    destruct (isTimelineBound a).
    - destruct (Qeq_bool (inject_Z f + - pv) 0) eqn:E; simpl negb; cbv iota.
      + exists (fq + 1). split; reflexivity.
      + exists (fq + (inject_Z f + - pv)). split; [|reflexivity].
        destruct Hpv as [H0|H1].
        * assert (Qeq_bool (inject_Z f + - pv) 0 = true)
            by (apply Qeq_bool_iff; lra).
          congruence.
        * lra.
    - exists (fq + 1). split; reflexivity. }
  destruct HF as (F & HFeq & HFv). rewrite HFv.
  destruct (step_ok (num_div (Fin F) (to_number (duration a)))
              (set_frame (Fin F) (set_prevFrame P a)))
    as (i & h & Hstep & Hok').
  { exact Hok. }
  exists i, h, F, P. split; [exact HFeq|]. split; [exact Hok'|].
  rewrite Hstep. simpl bind.
  cbn [isTimelineBound set_attrs set_currentTweenIndex set_frame
       set_prevFrame].
  rewrite andb_false_r, HD. reflexivity.
Qed.

(** *** One signal while playing *)

Lemma inject_Z_S (k : nat) :
  inject_Z (Z.of_nat (S k)) == inject_Z (Z.of_nat k) + 1.
Proof. rewrite Nat2Z.inj_succ, <- Z.add_1_r, inject_Z_plus. reflexivity. Qed.

Lemma inject_Z_of_nat_nonneg (k : nat) : 0 <= inject_Z (Z.of_nat k).
Proof. change 0 with (inject_Z 0). rewrite <- Zle_Qle. lia. Qed.

Lemma inject_Z_of_nat_lt (j k : nat) :
  (j < k)%nat -> inject_Z (Z.of_nat j) < inject_Z (Z.of_nat k).
Proof. intros H. rewrite <- Zlt_Qlt. lia. Qed.

Lemma num_equiv_trans (x y z : num) :
  num_equiv x y -> num_equiv y z -> num_equiv x z.
Proof.
  destruct x, y, z; simpl; try tauto. intros H1 H2. rewrite H1. exact H2.
Qed.

Lemma num_eqb_equiv (x y z : num) :
  num_equiv x y -> num_eqb x z = num_eqb y z.
Proof.
  destruct x as [p| | |], y as [q| | |], z as [t| | |]; simpl;
    try tauto; try reflexivity.
  intros H. destruct (Qeq_bool q t) eqn:E.
  - apply Qeq_bool_iff in E. apply Qeq_bool_iff. lra.
  - apply Qeq_bool_false. intros H'.
    assert (Qeq_bool q t = true) by (apply Qeq_bool_iff; lra). congruence.
Qed.

Lemma num_gt_equiv (x y z : num) :
  num_equiv x y -> num_gt x z = num_gt y z.
Proof.
  destruct x as [p| | |], y as [q| | |], z as [t| | |]; simpl;
    try tauto; try reflexivity.
  intros H. f_equal. destruct (Qle_bool q t) eqn:E.
  - apply Qle_bool_iff in E. apply Qle_bool_iff. lra.
  - destruct (Qle_bool p t) eqn:E'; [|reflexivity].
    apply Qle_bool_iff in E'.
    assert (Qle_bool q t = true) by (apply Qle_bool_iff; lra). congruence.
Qed.

Lemma num_sub_equiv (x y z : num) :
  num_equiv x y -> num_equiv (num_sub x z) (num_sub y z).
Proof.
  destruct x as [p| | |], y as [q| | |], z as [t| | |]; simpl;
    try tauto.
  intros H. rewrite H. reflexivity.
Qed.

Lemma playing_repeat_equiv (n d : nat) (r r' : num) (ev : list string)
    (j c : nat) (f : Z) (a : animation) :
  num_equiv r r' -> playing n d r ev j c f a -> playing n d r' ev j c f a.
Proof.
  intros E [H1 H2 H3 H4 H5 H6 H7 H8 H9 H10].
  constructor; try assumption. exact (num_equiv_trans _ _ _ H3 E).
Qed.

(** A signal during the delay: no frame advance, no stepping. *)
Lemma playing_delay_tick (n d : nat) (r : num) (ev : list string) (c : nat)
    (f : Z) (a : animation) :
  playing n d r ev 0 (S c) f a ->
  exists a',
    onStep tween_at (Fin (inject_Z f)) false a = Done a'
    /\ playing n d r ev 0 c (f + 1) a'.
Proof.
  intros [H1 H2 H3 H4 H5 H6 H7 H8 H9 H10].
  destruct H7 as (q & Hq & Eq).
  assert (Hpos : 0 < q).
  { rewrite Eq, inject_Z_S.
    pose proof (inject_Z_of_nat_nonneg c). lra. }
  exists (set_currentDelay (num_sub (currentDelay a) (Fin 1)) a). split.
  - apply onStep_delayed. rewrite Hq. simpl. rewrite Qle_bool_false by exact Hpos.
    reflexivity.
  - constructor; try assumption.
    + destruct H6 as (p & Hp & [E0|[Ec _]]); [|discriminate].
      exists p. split; [exact Hp|left; exact E0].
    + rewrite Hq. exists (q + - 1). split; [reflexivity|].
      rewrite Eq, inject_Z_S. lra.
Qed.

(** A signal after the delay, before the last frame. *)
Lemma playing_step_tick (n d : nat) (r : num) (ev : list string) (j : nat)
    (f : Z) (a : animation) :
  playing n d r ev j 0 f a -> (S j < n)%nat ->
  exists a',
    onStep tween_at (Fin (inject_Z f)) false a = Done a'
    /\ playing n d r ev (S j) 0 (f + 1) a'.
Proof.
  intros [H1 H2 H3 H4 H5 H6 H7 H8 H9 H10] Hj.
  destruct H5 as (fq & Hf & Ef). destruct H6 as (pq & Hp & Ep).
  destruct H7 as (cq & Hc & Ec).
  destruct (onStep_advance f a cq fq pq (inject_Z (Z.of_nat n)))
    as (i & h & F & P & HF & Hok & Hstep); try assumption.
  { destruct Ep as [E|[_ E]]; [left|right]; exact E. }
  rewrite Qeq_bool_false in Hstep.
  2:{ rewrite HF, Ef, <- inject_Z_S.
      pose proof (inject_Z_of_nat_lt (S j) n Hj). lra. }
  eexists. split; [exact Hstep|].
  constructor; try assumption.
  - exists F. split; [reflexivity|]. rewrite HF, Ef, inject_Z_S. reflexivity.
  - exists (inject_Z f). split; [reflexivity|]. right. split; [reflexivity|].
    replace (f + 1 - 1)%Z with f by lia. reflexivity.
  - exists cq. split; assumption.
Qed.

(** [play] on an animation that was reset. *)
Lemma play_after_reset (x : animation) :
  isPlaying x = false -> frame x = Fin 0 ->
  exists h,
    play x
    = clock_on
        (set_isPlaying true
           (set_attrs h (emit "play" (emit "beforebegin" x)))).
Proof.
  intros Hp Hf. unfold play. rewrite Hp, Hf.
  change (num_eqb (Fin 0) (Fin 0)) with true. cbv iota.
  destruct (kf_at (keyframes (emit "play" (emit "beforebegin" x))) (Fin 0))
    as [initial|].
  - destruct (Nat.eqb (currentTweenIndex (emit "play" (emit "beforebegin" x))) 0).
    + eexists. reflexivity.
    + exists (attrs x). reflexivity.
  - exists (attrs x). reflexivity.
Qed.

Lemma segments_ok_reset (b x : animation) :
  subjects x = subjects b -> currentTweenIndex x = 0%nat ->
  segments_ok b -> segments_ok x.
Proof.
  unfold segments_ok. intros Hs Hi. rewrite Hs, Hi.
  destruct (subjects b); [tauto|]. intros [H1 H2]. split; [lia|exact H2].
Qed.

(** The end of a play-through: a restart when the repeat count is unlimited
    or positive, the end notification otherwise; a finite count goes down by
    one either way. *)
Lemma onStep_finish_spec (n d : nat) (r : num) (ev : list string) (f : Z)
    (b : animation) :
  duration b = VNum (Fin (inject_Z (Z.of_nat n))) ->
  delay b = Fin (inject_Z (Z.of_nat d)) ->
  num_equiv (repeat b) r -> emitted b = ev -> segments_ok b ->
  if num_eqb r PInf || num_gt r (Fin 0)
  then playing n d (if num_eqb r PInf then r else num_sub r (Fin 1))
         (ev ++ ["beforebegin"; "play"])%list 0 d f (onStep_finish b)
  else emitted (onStep_finish b) = (ev ++ ["end"])%list
       /\ listening (onStep_finish b) = false
       /\ isPlaying (onStep_finish b) = false
       /\ frame (onStep_finish b) = Fin 0.
Proof.
  intros HD Hd Hr Hev Hok. unfold onStep_finish. cbv zeta.
  set (x := reset (set_currentDelay (delay (set_prevFrame (Fin 0) b))
                     (set_prevFrame (Fin 0) b))).
  assert (Hrx : repeat x = repeat b) by reflexivity.
  rewrite Hrx, (num_eqb_equiv _ _ PInf Hr), (num_gt_equiv _ _ (Fin 0) Hr).
  assert (restart :
    forall y rr, isPlaying y = false -> frame y = Fin 0 ->
      duration y = duration b -> delay y = delay b ->
      num_equiv (repeat y) rr -> emitted y = emitted b ->
      prevFrame y = Fin 0 -> currentDelay y = delay b ->
      subjects y = subjects b -> currentTweenIndex y = 0%nat ->
      playing n d rr (ev ++ ["beforebegin"; "play"])%list 0 d f (play y)).
  { intros y rr Hy1 Hy2 Hy3 Hy4 Hy5 Hy6 Hy7 Hy8 Hy9 Hy10.
    destruct (play_after_reset y Hy1 Hy2) as [h Hplay]. rewrite Hplay.
    constructor; cbn [duration delay repeat emitted frame prevFrame
                      currentDelay listening isPlaying clock_on emit
                      set_listening set_isPlaying set_attrs set_emitted].
    - rewrite Hy3. exact HD.
    - rewrite Hy4. exact Hd.
    - exact Hy5.
    - rewrite Hy6, Hev, <- app_assoc. reflexivity.
    - exists 0. split; [exact Hy2|reflexivity].
    - exists 0. split; [exact Hy7|left; reflexivity].
    - exists (inject_Z (Z.of_nat d)). split; [|reflexivity].
      rewrite Hy8. exact Hd.
    - apply (segments_ok_reset b); [exact Hy9|exact Hy10|exact Hok].
    - reflexivity.
    - reflexivity. }
  destruct (num_eqb r PInf) eqn:Einf; simpl orb.
  - apply restart; try reflexivity. exact Hr.
  - destruct (num_gt r (Fin 0)) eqn:Egt.
    + apply restart; try reflexivity.
      apply (num_sub_equiv _ _ (Fin 1) Hr).
    + cbn. rewrite Hev. repeat split; reflexivity.
Qed.

(** The signal of the last frame: the play-through finishes; the animation
    restarts when the repeat count is unlimited or positive, and ends
    otherwise. *)
Lemma playing_final_tick (n d : nat) (r : num) (ev : list string) (j : nat)
    (f : Z) (a : animation) :
  playing n d r ev j 0 f a -> S j = n ->
  exists a',
    onStep tween_at (Fin (inject_Z f)) false a = Done a'
    /\ if num_eqb r PInf || num_gt r (Fin 0)
       then playing n d (if num_eqb r PInf then r else num_sub r (Fin 1))
              (ev ++ ["beforebegin"; "play"])%list 0 d (f + 1) a'
       else emitted a' = (ev ++ ["end"])%list
            /\ listening a' = false /\ isPlaying a' = false
            /\ frame a' = Fin 0.
Proof.
  intros [H1 H2 H3 H4 H5 H6 H7 H8 H9 H10] Hj.
  destruct H5 as (fq & Hf & Ef). destruct H6 as (pq & Hp & Ep).
  destruct H7 as (cq & Hc & Ec).
  destruct (onStep_advance f a cq fq pq (inject_Z (Z.of_nat n)))
    as (i & h & F & P & HF & Hok & Hstep); try assumption.
  { destruct Ep as [E|[_ E]]; [left|right]; exact E. }
  rewrite Qeq_bool_true in Hstep.
  2:{ rewrite HF, Ef, <- inject_Z_S, Hj. reflexivity. }
  eexists. split; [exact Hstep|].
  apply onStep_finish_spec; try assumption.
Qed.

(** *** Runs of signals *)

Lemma perform_all_app (cs1 cs2 : list call) (a : animation) :
  perform_all tween_at (cs1 ++ cs2) a
  = bind (perform_all tween_at cs1 a) (perform_all tween_at cs2).
Proof.
  revert a. induction cs1 as [|c cs1 IH]; intros a; [reflexivity|].
  simpl. destruct (perform tween_at c a) as [a'|e a']; simpl;
    [apply IH|reflexivity].
Qed.

Lemma signals_S (f : Z) (k : nat) :
  signals f (S k)
  = (signals f k ++ [Signal (Fin (inject_Z (f + Z.of_nat k))) false])%list.
Proof. unfold signals. rewrite seq_S, map_app. reflexivity. Qed.

Lemma signals_add (f : Z) (k1 k2 : nat) :
  signals f (k1 + k2) = (signals f k1 ++ signals (f + Z.of_nat k1) k2)%list.
Proof.
  induction k2 as [|k2 IH].
  - rewrite Nat.add_0_r. unfold signals at 3. simpl. rewrite app_nil_r.
    reflexivity.
  - rewrite Nat.add_succ_r, !signals_S, IH, <- app_assoc.
    rewrite Nat2Z.inj_add, Z.add_assoc. reflexivity.
Qed.

(** The first [k] signals of a play-through, [k] below delay plus
    duration: the delay is counted down first, then the frames go up. *)
Lemma run_prefix (n d : nat) (r : num) (ev : list string) (f : Z)
    (a : animation) (k : nat) :
  playing n d r ev 0 d f a -> (k < d + n)%nat ->
  exists a',
    perform_all tween_at (signals f k) a = Done a'
    /\ playing n d r ev (k - d) (d - k) (f + Z.of_nat k) a'.
Proof.
  intros Hp. induction k as [|k IH]; intros Hk.
  - exists a. split; [reflexivity|].
    rewrite Nat.sub_0_r, Z.add_0_r. exact Hp.
  - destruct IH as (ak & Hrun & Hk'); [lia|].
    rewrite signals_S, perform_all_app, Hrun.
    cbn [bind perform_all perform]. unfold clock_signal. rewrite (playing_listening _ _ _ _ _ _ _ _ Hk').
    destruct (Nat.lt_ge_cases k d) as [Hlt|Hge].
    + replace (k - d)%nat with 0%nat in Hk' by lia.
      replace (d - k)%nat with (S (d - S k)) in Hk' by lia.
      destruct (playing_delay_tick _ _ _ _ _ _ _ Hk') as (a' & Hs & Hp').
      exists a'. rewrite Hs. split; [reflexivity|].
      replace (S k - d)%nat with 0%nat by lia.
      replace (f + Z.of_nat (S k))%Z with (f + Z.of_nat k + 1)%Z by lia.
      exact Hp'.
    + replace (d - k)%nat with 0%nat in Hk' by lia.
      destruct (playing_step_tick _ _ _ _ _ _ _ Hk') as (a' & Hs & Hp');
        [lia|].
      exists a'. rewrite Hs. split; [reflexivity|].
      replace (S k - d)%nat with (S (k - d)) by lia.
      replace (d - S k)%nat with 0%nat by lia.
      replace (f + Z.of_nat (S k))%Z with (f + Z.of_nat k + 1)%Z by lia.
      exact Hp'.
Qed.

(** A whole play-through takes delay plus duration signals. *)
Lemma run_through (n d : nat) (r : num) (ev : list string) (f : Z)
    (a : animation) :
  playing n d r ev 0 d f a -> (1 <= n)%nat ->
  exists a',
    perform_all tween_at (signals f (d + n)) a = Done a'
    /\ if num_eqb r PInf || num_gt r (Fin 0)
       then playing n d (if num_eqb r PInf then r else num_sub r (Fin 1))
              (ev ++ ["beforebegin"; "play"])%list 0 d
              (f + Z.of_nat (d + n)) a'
       else emitted a' = (ev ++ ["end"])%list
            /\ listening a' = false /\ isPlaying a' = false
            /\ frame a' = Fin 0.
Proof.
  intros Hp Hn.
  destruct (run_prefix n d r ev f a (d + n - 1) Hp) as (ak & Hrun & Hk);
    [lia|].
  assert (E : signals f (d + n)
              = (signals f (d + n - 1)
                 ++ [Signal (Fin (inject_Z (f + Z.of_nat (d + n - 1)))) false])%list).
  { rewrite <- signals_S. f_equal. lia. }
  rewrite E, perform_all_app, Hrun.
  cbn [bind perform_all perform]. unfold clock_signal. rewrite (playing_listening _ _ _ _ _ _ _ _ Hk).
  replace (d - (d + n - 1))%nat with 0%nat in Hk by lia.
  destruct (playing_final_tick _ _ _ _ _ _ _ Hk) as (a' & Hs & Hfin); [lia|].
  exists a'. rewrite Hs. split; [reflexivity|].
  replace (f + Z.of_nat (d + n))%Z with (f + Z.of_nat (d + n - 1) + 1)%Z
    by lia.
  exact Hfin.
Qed.

(** [R] repeats: the end notification comes with the last signal of the
    play-through number [R + 1], and not before. *)
Lemma run_repeats (n d : nat) (R : nat) :
  (1 <= n)%nat ->
  forall (ev : list string) (f : Z) (a : animation),
  playing n d (Fin (inject_Z (Z.of_nat R))) ev 0 d f a ->
  (forall k, (k < (R + 1) * (d + n))%nat ->
     exists a',
       perform_all tween_at (signals f k) a = Done a'
       /\ emitted a' = (ev ++ restarts (k / (d + n)))%list
       /\ listening a' = true)
  /\ exists a',
       perform_all tween_at (signals f ((R + 1) * (d + n))) a = Done a'
       /\ emitted a' = (ev ++ restarts R ++ ["end"])%list
       /\ listening a' = false.
Proof.
  intros Hn. induction R as [|R IH]; intros ev f a Hp.
  - split.
    + intros k Hk. destruct (run_prefix _ _ _ _ _ _ k Hp) as (a' & Hr & Hp');
        [lia|].
      exists a'. split; [exact Hr|].
      rewrite Nat.div_small by lia. simpl. rewrite app_nil_r.
      split; [apply (playing_emitted _ _ _ _ _ _ _ _ Hp')
             |apply (playing_listening _ _ _ _ _ _ _ _ Hp')].
    + destruct (run_through _ _ _ _ _ _ Hp Hn) as (a' & Hr & Hfin).
      simpl in Hfin. destruct Hfin as (He & Hl & _).
      exists a'. simpl Nat.mul. rewrite Nat.add_0_r.
      split; [exact Hr|]. split; [exact He|exact Hl].
  - destruct (run_through _ _ _ _ _ _ Hp Hn) as (a1 & Hr1 & Hfin).
    assert (Hgt : num_gt (Fin (inject_Z (Z.of_nat (S R)))) (Fin 0) = true).
    { unfold num_gt. rewrite Qle_bool_false; [reflexivity|].
      rewrite inject_Z_S. pose proof (inject_Z_of_nat_nonneg R). lra. }
    simpl num_eqb in Hfin. rewrite Hgt in Hfin. simpl orb in Hfin.
    cbv iota in Hfin.
    assert (Hp1 : playing n d (Fin (inject_Z (Z.of_nat R)))
                    (ev ++ ["beforebegin"; "play"])%list 0 d
                    (f + Z.of_nat (d + n)) a1).
    { refine (playing_repeat_equiv _ _ _ _ _ _ _ _ _ _ Hfin).
      unfold num_sub, num_neg, num_add, num_equiv.
      rewrite inject_Z_S. lra. }
    destruct (IH _ _ _ Hp1) as [IHpre (a2 & Hr2 & He2 & Hl2)].
    split.
    + intros k Hk. destruct (Nat.lt_ge_cases k (d + n)) as [Hlt|Hge].
      * destruct (run_prefix _ _ _ _ _ _ k Hp Hlt) as (a' & Hr & Hp').
        exists a'. split; [exact Hr|].
        rewrite Nat.div_small by lia. simpl. rewrite app_nil_r.
        split; [apply (playing_emitted _ _ _ _ _ _ _ _ Hp')
               |apply (playing_listening _ _ _ _ _ _ _ _ Hp')].
      * destruct (IHpre (k - (d + n))%nat) as (a' & Hr & He & Hl); [lia|].
        exists a'.
        replace k with ((d + n) + (k - (d + n)))%nat at 1 by lia.
        rewrite signals_add, perform_all_app, Hr1. simpl bind.
        split; [exact Hr|]. split; [|exact Hl].
        rewrite He, <- app_assoc.
        replace (k / (d + n))%nat with (S ((k - (d + n)) / (d + n))).
        { reflexivity. }
        replace k with (1 * (d + n) + (k - (d + n)))%nat at 2 by lia.
        rewrite Nat.div_add_l by lia. reflexivity.
    + exists a2.
      replace ((S R + 1) * (d + n))%nat
        with ((d + n) + (R + 1) * (d + n))%nat by lia.
      rewrite signals_add, perform_all_app, Hr1. simpl bind.
      split; [exact Hr2|]. split; [|exact Hl2].
      rewrite He2, <- app_assoc. reflexivity.
Qed.

(** C7: while the delay counter is positive a signal takes one off it and
    does nothing else: no frame advance, no stepping.  With a delay of [d]
    and a duration of [n] frames, under a clock that counts frame by frame,
    the frame counter is still 0 after each of the first [d] signals, no
    signal before number [d + n] finishes the play-through, and signal
    [d + n] does (delay 3, duration 5: the 8th signal). *)
Theorem delay_consumes_signals (n d : nat) (r : num) (ev : list string)
    (f : Z) (a : animation) :
  (forall frameNumber finished b,
     num_gt (currentDelay b) (Fin 0) = true ->
     onStep tween_at frameNumber finished b
     = Done (set_currentDelay (num_sub (currentDelay b) (Fin 1)) b))
  /\ (playing n d r ev 0 d f a -> (1 <= n)%nat ->
      (forall k, (k <= d)%nat ->
         exists a',
           perform_all tween_at (signals f k) a = Done a'
           /\ num_equiv (frame a') (Fin 0) /\ emitted a' = ev)
      /\ (forall k, (k < d + n)%nat ->
            exists a',
              perform_all tween_at (signals f k) a = Done a'
              /\ num_equiv (frame a') (Fin (inject_Z (Z.of_nat (k - d))))
              /\ emitted a' = ev /\ listening a' = true)
      /\ exists a',
           perform_all tween_at (signals f (d + n)) a = Done a'
           /\ num_equiv (frame a') (Fin 0)
           /\ emitted a'
              = (ev ++ if num_eqb r PInf || num_gt r (Fin 0)
                       then ["beforebegin"; "play"] else ["end"])%list).
Proof.
  split; [intros fn fin b; apply onStep_delayed|].
  intros Hp Hn.
  assert (prefix :
    forall k, (k < d + n)%nat ->
      exists a',
        perform_all tween_at (signals f k) a = Done a'
        /\ num_equiv (frame a') (Fin (inject_Z (Z.of_nat (k - d))))
        /\ emitted a' = ev /\ listening a' = true).
  { intros k Hk. destruct (run_prefix _ _ _ _ _ _ k Hp Hk) as (a' & Hr & Hp').
    exists a'. split; [exact Hr|].
    destruct (playing_frame _ _ _ _ _ _ _ _ Hp') as (q & Hq & Eq).
    rewrite Hq. split; [exact Eq|].
    split; [apply (playing_emitted _ _ _ _ _ _ _ _ Hp')
           |apply (playing_listening _ _ _ _ _ _ _ _ Hp')]. }
  split; [|split; [exact prefix|]].
  - intros k Hk. destruct (prefix k) as (a' & Hr & Hf & He & _); [lia|].
    exists a'. replace (k - d)%nat with 0%nat in Hf by lia.
    split; [exact Hr|]. split; [exact Hf|exact He].
  - destruct (run_through _ _ _ _ _ _ Hp Hn) as (a' & Hr & Hfin).
    exists a'. split; [exact Hr|].
    destruct (num_eqb r PInf || num_gt r (Fin 0)).
    + destruct (playing_frame _ _ _ _ _ _ _ _ Hfin) as (q & Hq & Eq).
      rewrite Hq. split; [exact Eq|].
      apply (playing_emitted _ _ _ _ _ _ _ _ Hfin).
    + destruct Hfin as (He & _ & _ & Hf). rewrite Hf.
      split; [reflexivity|exact He].
Qed.

(** C6: when a play-through finishes, [play()] is called again if the
    repeat count is unlimited or still positive, a finite count going down
    by one, and the end notification is emitted otherwise.  With a repeat
    count of [R], under a clock that counts frame by frame, the end
    notification comes with the last signal of play-through [R + 1] and no
    earlier: after 3 play-throughs for a count of 2, after 1 for a count of
    0. *)
Theorem repeat_play_throughs (n d R : nat) (ev : list string) (f : Z)
    (a : animation) :
  (1 <= n)%nat ->
  (forall r j ev' f' b,
     playing n d r ev' j 0 f' b -> S j = n ->
     exists b',
       onStep tween_at (Fin (inject_Z f')) false b = Done b'
       /\ if num_eqb r PInf || num_gt r (Fin 0)
          then playing n d (if num_eqb r PInf then r else num_sub r (Fin 1))
                 (ev' ++ ["beforebegin"; "play"])%list 0 d (f' + 1) b'
          else emitted b' = (ev' ++ ["end"])%list
               /\ listening b' = false /\ isPlaying b' = false
               /\ frame b' = Fin 0)
  /\ (playing n d (Fin (inject_Z (Z.of_nat R))) ev 0 d f a ->
      (forall k, (k < (R + 1) * (d + n))%nat ->
         exists a',
           perform_all tween_at (signals f k) a = Done a'
           /\ emitted a' = (ev ++ restarts (k / (d + n)))%list
           /\ listening a' = true)
      /\ exists a',
           perform_all tween_at (signals f ((R + 1) * (d + n))) a = Done a'
           /\ emitted a' = (ev ++ restarts R ++ ["end"])%list
           /\ listening a' = false).
Proof.
  intros Hn. split.
  - intros r j ev' f' b Hp Hj. apply (playing_final_tick _ _ _ _ _ _ _ Hp Hj).
  - intros Hp. apply (run_repeats n d R Hn ev f a Hp).
Qed.

(** *** Segments without length *)

Lemma phase_progress_zero_length (t : tween) (s e p : Q) :
  startProgress t = Fin s -> endProgress t = Fin e -> s == e ->
  phase_progress t (Fin p)
  = if Qeq_bool p s then NaN else if Qle_bool p s then NInf else PInf.
Proof.
  intros Hs He Hse. unfold phase_progress. rewrite Hs, He. simpl.
  assert (E0 : Qeq_bool (e + - s) 0 = true) by (apply Qeq_bool_iff; lra).
  rewrite E0.
  destruct (Qeq_bool p s) eqn:Eps.
  - apply Qeq_bool_iff in Eps.
    assert (E1 : Qeq_bool (p + - s) 0 = true) by (apply Qeq_bool_iff; lra).
    rewrite E1. reflexivity.
  - assert (E1 : Qeq_bool (p + - s) 0 = false).
    { destruct (Qeq_bool (p + - s) 0) eqn:E; [|reflexivity].
      apply Qeq_bool_iff in E.
      assert (Qeq_bool p s = true) by (apply Qeq_bool_iff; lra). congruence. }
    rewrite E1. unfold Qpos_bool.
    destruct (Qle_bool p s) eqn:Hle.
    + apply Qle_bool_iff in Hle.
      assert (E2 : Qle_bool (p + - s) 0 = true) by (apply Qle_bool_iff; lra).
      rewrite E2. reflexivity.
    + destruct (Qle_bool (p + - s) 0) eqn:E2; [|reflexivity].
      apply Qle_bool_iff in E2.
      assert (Qle_bool p s = true) by (apply Qle_bool_iff; lra). congruence.
Qed.

(** C5, amended: [step] divides by [endProgress - startProgress] without a
    guard.  On an active segment without length the phase-local progress is
    [Infinity] when the eased progress lies above the start of the segment,
    [NaN] when it equals the start and [-Infinity] when it lies below.  The
    executor moves on only in the first case, and only when a further segment
    exists; otherwise it evaluates the interpolation primitive of every
    subject at that infinity or [NaN]. *)
Theorem step_zero_length_segment (progress : num) (a : animation)
    (first : binding) (rest : list binding) (t : tween) (s e p : Q) :
  subjects a = first :: rest ->
  nth_error (tweens first) (currentTweenIndex a) = Some t ->
  startProgress t = Fin s -> endProgress t = Fin e -> s == e ->
  eased a progress = Fin p ->
  let thisPhaseProgress :=
    if Qeq_bool p s then NaN else if Qle_bool p s then NInf else PInf in
  phase_progress t (eased a progress) = thisPhaseProgress
  /\ step tween_at progress a
     = if negb (Qle_bool p s)
          && (currentTweenIndex a + 1 <? List.length (tweens first))%nat
       then step tween_at progress
              (set_currentTweenIndex (currentTweenIndex a + 1)%nat a)
       else outcome_map (fun h => set_attrs h a)
              (apply_tweens tween_at (subjects a) (currentTweenIndex a)
                 thisPhaseProgress (attrs a)).
Proof.
  intros Hsub Hnth Hs He Hse Hp ph.
  assert (Hph : phase_progress t (eased a progress) = ph).
  { rewrite Hp. apply (phase_progress_zero_length t s e p Hs He Hse). }
  split; [exact Hph|].
  rewrite step_eq, Hsub, Hnth. cbv zeta. rewrite Hph. subst ph.
  destruct (Qeq_bool p s) eqn:Eps.
  - apply Qeq_bool_iff in Eps.
    assert (Hle : Qle_bool p s = true) by (apply Qle_bool_iff; lra).
    rewrite Hle. reflexivity.
  - destruct (Qle_bool p s); reflexivity.
Qed.

End WithTween.

(** C5, as stated, fails: with the keys [5, 10, 10] the last segment has no
    length.  [step(1.1)] makes it the active segment; [step(1)] then divides
    0 by 0, the phase-local progress is [NaN], which is not above 1, and the
    subject receives [NaN]. *)
Lemma zero_length_segment_gives_NaN :
  bind doubled_key (step linear_at (Fin (11 # 10))) = Done past_the_end
  /\ option_map (fun t => num_eqb (startProgress t) (endProgress t))
       (nth_error
          (tweens (hd (mkBinding 0 []) (subjects past_the_end)))
          (currentTweenIndex past_the_end))
     = Some true
  /\ option_map (fun t => phase_progress t (eased past_the_end (Fin 1)))
       (nth_error
          (tweens (hd (mkBinding 0 []) (subjects past_the_end)))
          (currentTweenIndex past_the_end))
     = Some NaN
  /\ num_gt NaN (Fin 1) = false
  /\ attrs (state_of (step linear_at (Fin 1) past_the_end))
     = [(1%nat, [("x", VNum NaN)])].
Proof. vm_compute. repeat split. Qed.

Lemma delayed_once_playing :
  playing 5 3 (Fin 0) ["beforebegin"; "play"] 0 3 1 delayed_once.
Proof.
  constructor; try reflexivity.
  - exists 0. split; reflexivity.
  - exists 0. split; [reflexivity|left; reflexivity].
  - exists 3. split; reflexivity.
  - split; [simpl; lia|repeat constructor].
Qed.

Lemma delayed_thrice_playing :
  playing 5 3 (Fin 2) ["beforebegin"; "play"] 0 3 1 delayed_thrice.
Proof.
  constructor; try reflexivity.
  - exists 0. split; reflexivity.
  - exists 0. split; [reflexivity|left; reflexivity].
  - exists 3. split; reflexivity.
  - split; [simpl; lia|repeat constructor].
Qed.

Lemma delay_consumes_signals_witness :
  onStep linear_at (Fin 1) false delayed_once
  = Done (set_currentDelay (num_sub (currentDelay delayed_once) (Fin 1))
            delayed_once)
  /\ (forall k, (k <= 3)%nat ->
        exists a',
          perform_all linear_at (signals 1 k) delayed_once = Done a'
          /\ num_equiv (frame a') (Fin 0)
          /\ emitted a' = ["beforebegin"; "play"])
  /\ (forall k, (k < 3 + 5)%nat ->
        exists a',
          perform_all linear_at (signals 1 k) delayed_once = Done a'
          /\ num_equiv (frame a') (Fin (inject_Z (Z.of_nat (k - 3))))
          /\ emitted a' = ["beforebegin"; "play"] /\ listening a' = true)
  /\ exists a',
       perform_all linear_at (signals 1 (3 + 5)) delayed_once = Done a'
       /\ num_equiv (frame a') (Fin 0)
       /\ emitted a'
          = (["beforebegin"; "play"]
             ++ if num_eqb (Fin 0) PInf || num_gt (Fin 0) (Fin 0)
                then ["beforebegin"; "play"] else ["end"])%list.
Proof.
  destruct (delay_consumes_signals linear_at 5 3 (Fin 0)
              ["beforebegin"; "play"] 1 delayed_once) as [H1 H2].
  split.
  - apply H1. reflexivity.
  - apply H2; [exact delayed_once_playing|lia].
Defined.

Lemma repeat_play_throughs_witness :
  (forall k, (k < (2 + 1) * (3 + 5))%nat ->
     exists a',
       perform_all linear_at (signals 1 k) delayed_thrice = Done a'
       /\ emitted a' = (["beforebegin"; "play"] ++ restarts (k / (3 + 5)))%list
       /\ listening a' = true)
  /\ exists a',
       perform_all linear_at (signals 1 ((2 + 1) * (3 + 5))) delayed_thrice
       = Done a'
       /\ emitted a' = (["beforebegin"; "play"] ++ restarts 2 ++ ["end"])%list
       /\ listening a' = false.
Proof.
  apply (repeat_play_throughs linear_at 5 3 2 ["beforebegin"; "play"] 1
           delayed_thrice);
    [lia|exact delayed_thrice_playing].
Defined.

Lemma step_zero_length_segment_witness :
  let t :=
    mkTween (Some [("x", vnum 100)]) (Some [("x", vnum 100)])
      (Fin (10 # 10)) (Fin (1000 # 1000)) in
  let first := hd (mkBinding 0 []) (subjects past_the_end) in
  let ph :=
    if Qeq_bool 1 (10 # 10) then NaN
    else if Qle_bool 1 (10 # 10) then NInf else PInf in
  phase_progress t (eased past_the_end (Fin 1)) = ph
  /\ step linear_at (Fin 1) past_the_end
     = if negb (Qle_bool 1 (10 # 10))
          && (currentTweenIndex past_the_end + 1
              <? List.length (tweens first))%nat
       then step linear_at (Fin 1)
              (set_currentTweenIndex
                 (currentTweenIndex past_the_end + 1)%nat past_the_end)
       else outcome_map (fun h => set_attrs h past_the_end)
              (apply_tweens linear_at (subjects past_the_end)
                 (currentTweenIndex past_the_end) ph (attrs past_the_end)).
Proof.
  intros t first ph.
  apply (step_zero_length_segment linear_at (Fin 1) past_the_end first []
           t (10 # 10) (1000 # 1000) 1); reflexivity.
Defined.

(** C8, as stated, fails: [play(); pause(); play()] on a new animation
    emits [beforebegin] twice, the frame counter being 0 at both calls. *)
Lemma beforebegin_emitted_twice :
  ~ (forall cs : list call,
       (count_event "beforebegin"
          (state_of
             (bind (three_keys (free_running [1%nat]))
                (perform_all linear_at cs))) <= 1)%nat).
Proof.
  intros H. specialize (H [CallPlay; CallPause; CallPlay]).
  vm_compute in H. lia.
Qed.

Lemma step_without_subjects_witness :
  subjects (state_of widened) = []
  /\ step linear_at (Fin (1 # 2)) (state_of widened)
     = Raised TypeError (state_of widened)
  /\ raised (onStep linear_at (Fin 1) false (state_of widened))
     = Some TypeError.
Proof.
  assert (H : subjects (state_of widened) = []) by reflexivity.
  destruct (step_without_subjects linear_at (Fin (1 # 2)) (state_of widened) H)
    as [H1 H2].
  split; [exact H|]. split; [exact H1|].
  apply H2. reflexivity.
Defined.

End Playback.

(** ** Calls in sequence *)

Module Lifecycle.

Import Scenario.
Local Open Scope string_scope.

Section WithTween.

Variable tween_at :
  option obj -> option obj -> option (num -> num) -> num -> obj.

Lemma set_nothing (a : animation) :
  set_attrs (attrs a) (set_currentTweenIndex (currentTweenIndex a) a) = a.
Proof. destruct a; reflexivity. Qed.

Lemma step_rec_frame (d : nat) (p : num) (a : animation) :
  exists i h,
    state_of (step_rec tween_at d p a)
    = set_attrs h (set_currentTweenIndex i a)
    /\ (currentTweenIndex a <= i)%nat
    /\ (i = currentTweenIndex a
        \/ exists first rest,
             subjects a = first :: rest
             /\ (i < List.length (tweens first))%nat).
Proof.
  revert a. induction d as [|d IH]; intros a;
    rewrite Playback.step_rec_eq;
    (destruct (subjects a) as [|first rest] eqn:Hs;
     [exists (currentTweenIndex a), (attrs a); simpl;
      rewrite set_nothing; auto|]);
    (destruct (nth_error (tweens first) (currentTweenIndex a)) eqn:Hn;
     [|exists (currentTweenIndex a), (attrs a); simpl;
       rewrite set_nothing; auto]);
    cbv zeta;
    (destruct (num_gt _ _ && (currentTweenIndex a + 1 <? _)%nat) eqn:Hb;
     [apply andb_prop in Hb; destruct Hb as [_ Hb]; apply Nat.ltb_lt in Hb
     |clear Hb;
      destruct (apply_tweens tween_at (first :: rest) (currentTweenIndex a)
                  (phase_progress t (eased a p)) (attrs a)) as [h|e h];
      exists (currentTweenIndex a), h; simpl;
      (split; [destruct a; reflexivity|auto])]).
  - exists (currentTweenIndex a), (attrs a). simpl. rewrite set_nothing. auto.
  - destruct (IH (set_currentTweenIndex (currentTweenIndex a + 1)%nat a))
      as (i & h & Hst & Hle & Hi).
    exists i, h. split; [exact Hst|]. simpl in Hle. split; [lia|].
    right. exists first, rest. split; [reflexivity|].
    destruct Hi as [->|(f' & r' & Hs' & Hlt)].
    + simpl. lia.
    + simpl in Hs'. rewrite Hs in Hs'. injection Hs' as <- <-. exact Hlt.
Qed.

Lemma step_state (p : num) (a : animation) :
  exists i h, state_of (step tween_at p a) = stepped i h a.
Proof.
  unfold step, stepped.
  destruct (step_rec_frame
              (match subjects a with
               | first :: _ => List.length (tweens first)
               | [] => 0%nat
               end) p a) as (i & h & H & _).
  exists i, h. exact H.
Qed.

(** X1: whether [step] returns or throws, it changes nothing but the index
    of the current segment and the attributes of the subjects.  The index
    never moves back, so a smaller progress does not return to an earlier
    segment, and where it moves it stays inside the segment list of the first
    subject. *)
Theorem step_moves_forward (progress : num) (a : animation) :
  exists i h,
    state_of (step tween_at progress a)
    = set_attrs h (set_currentTweenIndex i a)
    /\ (currentTweenIndex a <= i)%nat
    /\ (i = currentTweenIndex a
        \/ exists first rest,
             subjects a = first :: rest
             /\ (i < List.length (tweens first))%nat).
Proof. unfold step. apply step_rec_frame. Qed.

(** *** What the calls keep *)

Lemma play_fields (a : animation) :
  subjects (play a) = subjects a
  /\ currentTweenIndex (play a) = currentTweenIndex a
  /\ frame (play a) = frame a
  /\ duration (play a) = duration a
  /\ (listening (play a) = isPlaying (play a) \/ play a = a).
Proof.
  unfold play. destruct (isPlaying a); [auto 6|].
  destruct (num_eqb (frame a) (Fin 0)); simpl;
    destruct (kf_at _ _); try destruct (Nat.eqb _ _); simpl; auto 6.
Qed.

Lemma onStep_finish_fields (b : animation) :
  subjects (onStep_finish b) = subjects b
  /\ currentTweenIndex (onStep_finish b) = 0%nat
  /\ duration (onStep_finish b) = duration b
  /\ listening (onStep_finish b) = isPlaying (onStep_finish b).
Proof.
  unfold onStep_finish. cbv zeta.
  set (x := reset _).
  assert (Hx : isPlaying x = false) by reflexivity.
  assert (play_x : forall y, isPlaying y = false ->
            subjects y = subjects b -> currentTweenIndex y = 0%nat ->
            duration y = duration b ->
            subjects (play y) = subjects b
            /\ currentTweenIndex (play y) = 0%nat
            /\ duration (play y) = duration b
            /\ listening (play y) = isPlaying (play y)).
  { intros y Hy H1 H2 H3. destruct (play_fields y) as (P1 & P2 & _ & P4 & P5).
    rewrite P1, P2, P4. repeat split; try assumption.
    destruct P5 as [P5|P5]; [exact P5|].
    unfold play in P5 |- *. rewrite Hy in *.
    destruct (num_eqb (frame y) (Fin 0)); simpl;
      destruct (kf_at _ _); try destruct (Nat.eqb _ _); reflexivity. }
  destruct (num_eqb (repeat x) PInf).
  - apply play_x; reflexivity.
  - destruct (num_gt (repeat x) (Fin 0)).
    + apply play_x; reflexivity.
    + simpl. auto.
Qed.

Lemma segments_ok_same (a x : animation) :
  subjects x = subjects a -> currentTweenIndex x = currentTweenIndex a ->
  segments_ok a -> segments_ok x.
Proof. unfold segments_ok. intros -> ->. auto. Qed.

(** The outcomes of [onStep]: the delay takes the signal; or [step] runs
    and throws, or returns, and then the play-through finishes or goes on. *)
Lemma onStep_cases (frameNumber : num) (finished : bool) (a : animation) :
  (exists c, onStep tween_at frameNumber finished a
             = Done (set_currentDelay c a))
  \/ (exists c P F i h,
        (step tween_at (num_div F (to_number (duration a))) (advanced c P F a)
         = Done (stepped i h (advanced c P F a))
         /\ (onStep tween_at frameNumber finished a
             = Done (onStep_finish (stepped i h (advanced c P F a)))
             \/ onStep tween_at frameNumber finished a
                = Done (set_prevFrame frameNumber
                          (stepped i h (advanced c P F a)))))
        \/ (exists e,
              step tween_at (num_div F (to_number (duration a)))
                (advanced c P F a)
              = Raised e (stepped i h (advanced c P F a))
              /\ onStep tween_at frameNumber finished a
                 = Raised e (stepped i h (advanced c P F a)))).
Proof.
  assert (Hc : set_currentDelay (currentDelay a) a = a)
    by (destruct a; reflexivity).
  assert (core : forall c,
    let P := if num_truthy (prevFrame a) then prevFrame a else frameNumber in
    let F := if isTimelineBound a
             then num_add (frame a)
                    (if num_truthy (num_sub frameNumber P)
                     then num_sub frameNumber P else Fin 1)
             else num_add (frame a) (Fin 1) in
    exists i h,
      (step tween_at (num_div F (to_number (duration a))) (advanced c P F a)
       = Done (stepped i h (advanced c P F a))
       /\ (bind (step tween_at (num_div F (to_number (duration a)))
                   (advanced c P F a))
             (fun x =>
                if (isTimelineBound x && finished)
                   || strict_eq (VNum F) (duration a)
                then Done (onStep_finish x)
                else Done (set_prevFrame frameNumber x))
           = Done (onStep_finish (stepped i h (advanced c P F a)))
           \/ bind (step tween_at (num_div F (to_number (duration a)))
                      (advanced c P F a))
                (fun x =>
                   if (isTimelineBound x && finished)
                      || strict_eq (VNum F) (duration a)
                   then Done (onStep_finish x)
                   else Done (set_prevFrame frameNumber x))
              = Done (set_prevFrame frameNumber
                        (stepped i h (advanced c P F a)))))
      \/ (exists e,
            step tween_at (num_div F (to_number (duration a)))
              (advanced c P F a)
            = Raised e (stepped i h (advanced c P F a))
            /\ bind (step tween_at (num_div F (to_number (duration a)))
                       (advanced c P F a))
                 (fun x =>
                    if (isTimelineBound x && finished)
                       || strict_eq (VNum F) (duration a)
                    then Done (onStep_finish x)
                    else Done (set_prevFrame frameNumber x))
               = Raised e (stepped i h (advanced c P F a)))).
  { intros c P F.
    destruct (step_state (num_div F (to_number (duration a)))
                (advanced c P F a)) as (i & h & Hst).
    exists i, h.
    destruct (step tween_at (num_div F (to_number (duration a)))
                (advanced c P F a)) as [x|e x]; simpl in Hst; subst x.
    - left. split; [reflexivity|]. simpl bind.
      destruct (_ || _); auto.
    - right. exists e. split; reflexivity. }
  unfold onStep.
  destruct (num_gt (currentDelay a) (Fin 0)).
  - destruct (num_truthy (currentDelay a)).
    + left. eexists. reflexivity.
    + right. destruct (core (num_sub (currentDelay a) (Fin 1))) as (i & h & H).
      do 3 eexists. exists i, h. exact H.
  - right. destruct (core (currentDelay a)) as (i & h & H).
    unfold advanced in H. rewrite Hc in H.
    exists (currentDelay a). do 2 eexists. exists i, h.
    unfold advanced. rewrite Hc. exact H.
Qed.

Lemma perform_subscription (c : call) (a : animation) :
  listening a = isPlaying a ->
  listening (state_of (perform tween_at c a))
  = isPlaying (state_of (perform tween_at c a)).
Proof.
  intros H. destruct c as [| | |fn fin]; simpl.
  - destruct (play_fields a) as (_ & _ & _ & _ & [P|P]);
      [exact P|rewrite P; exact H].
  - reflexivity.
  - reflexivity.
  - unfold clock_signal. destruct (listening a) eqn:Hl; [|simpl; congruence].
    destruct (onStep_cases fn fin a)
      as [[c Hr]|(c & P & F & i & h & [[_ [Hr|Hr]]|(e & _ & Hr)])];
      rewrite Hr; simpl; try congruence.
    apply onStep_finish_fields.
Qed.

(** X2: the animation is subscribed to the clock exactly while [isPlaying]
    is set, after every sequence of [play], [pause], [reset] and clock
    signals, also when one of them throws. *)
Theorem subscribed_while_playing (cs : list call) (a : animation) :
  listening a = isPlaying a ->
  listening (state_of (perform_all tween_at cs a))
  = isPlaying (state_of (perform_all tween_at cs a)).
Proof.
  revert a. induction cs as [|c cs IH]; intros a H; [exact H|].
  simpl. pose proof (perform_subscription c a H) as Hc.
  destruct (perform tween_at c a) as [a'|e a']; simpl in *.
  - apply IH. exact Hc.
  - exact Hc.
Qed.

Lemma perform_segments_ok (c : call) (a : animation) :
  segments_ok a ->
  exists a', perform tween_at c a = Done a' /\ segments_ok a'.
Proof.
  intros Hok. destruct c as [| | |fn fin]; simpl.
  - eexists. split; [reflexivity|].
    destruct (play_fields a) as (P1 & P2 & _).
    exact (segments_ok_same a _ P1 P2 Hok).
  - eexists. split; [reflexivity|exact Hok].
  - eexists. split; [reflexivity|].
    apply (Playback.segments_ok_reset a); [reflexivity|reflexivity|exact Hok].
  - unfold clock_signal. destruct (listening a);
      [|eexists; split; [reflexivity|exact Hok]].
    destruct (onStep_cases fn fin a)
      as [[c Hr]|(c & P & F & i & h & Hr)].
    + rewrite Hr. eexists. split; [reflexivity|exact Hok].
    + destruct (Playback.step_ok tween_at (num_div F (to_number (duration a)))
                  (advanced c P F a))
        as (i' & h' & Hs' & Hok'); [exact Hok|].
      fold (stepped i' h' (advanced c P F a)) in Hs', Hok'.
      destruct Hr as [[Hst Hr]|(e & Hst & _)]; [|congruence].
      assert (Hb : segments_ok (stepped i h (advanced c P F a))).
      { rewrite Hst in Hs'. injection Hs' as ->. exact Hok'. }
      destruct Hr as [Hr|Hr]; rewrite Hr.
      * eexists. split; [reflexivity|].
        destruct (onStep_finish_fields (stepped i h (advanced c P F a)))
          as (F1 & F2 & _).
        exact (Playback.segments_ok_reset _ _ F1 F2 Hb).
      * eexists. split; [reflexivity|exact Hb].
Qed.

(** With a first subject, its current segment inside its segment list and
    as many segments for every other subject, no sequence of [play],
    [pause], [reset] and clock signals throws, and the bindings stay that
    way. *)
Lemma perform_all_segments_ok (cs : list call) (a : animation) :
  segments_ok a ->
  exists a', perform_all tween_at cs a = Done a' /\ segments_ok a'.
Proof.
  revert a. induction cs as [|c cs IH]; intros a Hok.
  - exists a. split; [reflexivity|exact Hok].
  - simpl. destruct (perform_segments_ok c a Hok) as (a1 & H1 & Hok1).
    rewrite H1. simpl. apply IH. exact Hok1.
Qed.

(** *** Signals after the delay *)

Lemma onStep_after_delay (frameNumber : num) (finished : bool)
    (a : animation) :
  num_gt (currentDelay a) (Fin 0) = false -> segments_ok a ->
  exists P i h,
    let b := stepped i h (advanced (currentDelay a) P
                            (next_frame frameNumber a) a) in
    segments_ok b
    /\ onStep tween_at frameNumber finished a
       = if (isTimelineBound a && finished)
            || strict_eq (VNum (next_frame frameNumber a)) (duration a)
         then Done (onStep_finish b)
         else Done (set_prevFrame frameNumber b).
Proof.
  intros Hd Hok. unfold onStep. rewrite Hd. cbv iota beta zeta.
  assert (Hc : set_currentDelay (currentDelay a) a = a)
    by (destruct a; reflexivity).
  set (P := if num_truthy (prevFrame a) then prevFrame a else frameNumber).
  cbn [isTimelineBound frame prevFrame duration set_prevFrame].
  fold P. change (if isTimelineBound a
                  then num_add (frame a)
                         (if num_truthy (num_sub frameNumber P)
                          then num_sub frameNumber P else Fin 1)
                  else num_add (frame a) (Fin 1))
            with (next_frame frameNumber a).
  set (F := next_frame frameNumber a).
  destruct (Playback.step_ok tween_at (num_div F (to_number (duration a)))
              (set_frame F (set_prevFrame P a)))
    as (i & h & Hst & Hok'); [exact Hok|].
  exists P, i, h. unfold advanced, stepped. rewrite Hc.
  split; [exact Hok'|]. rewrite Hst. reflexivity.
Qed.

Lemma onStep_finish_result (b : animation) :
  frame (onStep_finish b) = Fin 0
  /\ currentTweenIndex (onStep_finish b) = 0%nat
  /\ currentDelay (onStep_finish b) = delay b
  /\ prevFrame (onStep_finish b) = Fin 0
  /\ emitted (onStep_finish b)
     = (emitted b
        ++ if num_eqb (repeat b) PInf || num_gt (repeat b) (Fin 0)
           then ["beforebegin"; "play"] else ["end"])%list.
Proof.
  unfold onStep_finish. cbv zeta.
  set (x := reset _).
  assert (restart : forall y, isPlaying y = false -> frame y = Fin 0 ->
            currentTweenIndex y = 0%nat -> currentDelay y = delay b ->
            prevFrame y = Fin 0 -> emitted y = emitted b ->
            frame (play y) = Fin 0
            /\ currentTweenIndex (play y) = 0%nat
            /\ currentDelay (play y) = delay b
            /\ prevFrame (play y) = Fin 0
            /\ emitted (play y)
               = (emitted b ++ ["beforebegin"; "play"])%list).
  { intros y H1 H2 H3 H4 H5 H6.
    destruct (Playback.play_after_reset y H1 H2) as [h ->]. simpl.
    rewrite H6, <- app_assoc. auto. }
  change (repeat x) with (repeat b).
  destruct (num_eqb (repeat b) PInf); simpl orb.
  - apply restart; reflexivity.
  - destruct (num_gt (repeat b) (Fin 0)).
    + apply restart; reflexivity.
    + simpl. auto.
Qed.

(** X4: a timeline-bound animation finishes its play-through on the signal
    that reports the timeline finished, whatever its frame counter: the
    counter, the segment index and the previous frame go back to 0, the delay
    is restored, and the animation restarts or emits [end] by its repeat
    count. *)
Theorem finished_timeline_completes (frameNumber : num) (a : animation) :
  isTimelineBound a = true ->
  num_gt (currentDelay a) (Fin 0) = false -> segments_ok a ->
  exists a',
    onStep tween_at frameNumber true a = Done a'
    /\ frame a' = Fin 0 /\ currentTweenIndex a' = 0%nat
    /\ currentDelay a' = delay a /\ prevFrame a' = Fin 0
    /\ emitted a'
       = (emitted a
          ++ if num_eqb (repeat a) PInf || num_gt (repeat a) (Fin 0)
             then ["beforebegin"; "play"] else ["end"])%list.
Proof.
  intros Hb Hd Hok.
  destruct (onStep_after_delay frameNumber true a Hd Hok)
    as (P & i & h & _ & Hr).
  rewrite Hb in Hr. simpl in Hr. eexists. split; [exact Hr|].
  apply (onStep_finish_result
           (stepped i h (advanced (currentDelay a) P
                           (next_frame frameNumber a) a))).
Qed.

(** A free-running animation does not look at the flag. *)
Lemma free_running_ignores_finished (frameNumber : num) (a : animation) :
  isTimelineBound a = false ->
  onStep tween_at frameNumber true a = onStep tween_at frameNumber false a.
Proof.
  intros Hb.
  unfold onStep. destruct (num_gt (currentDelay a) (Fin 0));
    [destruct (num_truthy (currentDelay a)); [reflexivity|]|];
    cbv iota beta zeta;
    match goal with
    | |- bind ?m _ = bind ?m _ =>
        let H := fresh in
        destruct m as [x|e x] eqn:H; [|reflexivity];
        match type of H with
        | step _ ?p ?y = _ =>
            destruct (step_state p y) as (i & h & Hst);
            rewrite H in Hst; simpl in Hst; subst x
        end
    end; simpl; rewrite Hb; reflexivity.
Qed.

(** One signal that does not finish the play-through. *)
Lemma onStep_goes_on (frameNumber : num) (finished : bool) (a : animation) :
  segments_ok a ->
  (num_gt (currentDelay a) (Fin 0) = false ->
   (isTimelineBound a && finished)
   || strict_eq (VNum (next_frame frameNumber a)) (duration a) = false) ->
  exists a',
    onStep tween_at frameNumber finished a = Done a'
    /\ segments_ok a' /\ emitted a' = emitted a
    /\ listening a' = listening a /\ isPlaying a' = isPlaying a
    /\ duration a' = duration a /\ isTimelineBound a' = isTimelineBound a
    /\ currentDelay a' = (if num_gt (currentDelay a) (Fin 0)
                          then num_sub (currentDelay a) (Fin 1)
                          else currentDelay a)
    /\ (num_gt (currentDelay a) (Fin 0) = true ->
        frame a' = frame a /\ prevFrame a' = prevFrame a)
    /\ (num_gt (currentDelay a) (Fin 0) = false ->
        frame a' = next_frame frameNumber a /\ prevFrame a' = frameNumber).
Proof.
  intros Hok Hcond. destruct (num_gt (currentDelay a) (Fin 0)) eqn:Hd.
  - rewrite (Playback.onStep_delayed tween_at _ _ _ Hd).
    eexists. split; [reflexivity|]. simpl.
    repeat split; try reflexivity; try exact Hok; discriminate.
  - destruct (onStep_after_delay frameNumber finished a Hd Hok)
      as (P & i & h & Hok' & Hr).
    rewrite (Hcond eq_refl) in Hr. eexists. split; [exact Hr|]. simpl.
    repeat split; try reflexivity; try exact Hok'; discriminate.
Qed.

(** X5: the frame counter is a number, so it is never [===] a duration
    that is a string (what a numeric label beyond the declared duration
    leaves).  Such an animation finishes only when a timeline-bound signal
    reports the timeline finished: under any other signals it emits nothing
    and stays subscribed as it was. *)
Theorem string_duration_never_finishes (s : string)
    (sigs : list (num * bool)) (a : animation) :
  duration a = VStr s -> segments_ok a ->
  Forall (fun x => isTimelineBound a && snd x = false) sigs ->
  exists a',
    perform_all tween_at (map (fun x => Signal (fst x) (snd x)) sigs) a
    = Done a'
    /\ emitted a' = emitted a /\ listening a' = listening a
    /\ isPlaying a' = isPlaying a /\ duration a' = VStr s.
Proof.
  revert a. induction sigs as [|[fn fin] sigs IH]; intros a HD Hok Hall.
  - exists a. repeat split; auto.
  - inversion Hall as [|x l Hx Hl [E1 E2]]. simpl in Hx.
    simpl. unfold clock_signal.
    assert (Hone : exists a1,
              (if listening a then onStep tween_at fn fin a else Done a)
              = Done a1
              /\ segments_ok a1 /\ emitted a1 = emitted a
              /\ listening a1 = listening a /\ isPlaying a1 = isPlaying a
              /\ duration a1 = duration a
              /\ isTimelineBound a1 = isTimelineBound a).
    { destruct (listening a) eqn:Hlis; [|exists a; repeat split; auto].
      destruct (onStep_goes_on fn fin a Hok)
        as (a1 & H1 & H2 & H3 & H4 & H5 & H6 & H7 & _).
      - intros _. rewrite Hx, HD. reflexivity.
      - exists a1. repeat split; congruence. }
    destruct Hone as (a1 & H1 & H2 & H3 & H4 & H5 & H6 & H7).
    rewrite H1. simpl bind.
    destruct (IH a1) as (a' & R1 & R2 & R3 & R4 & R5).
    + rewrite H6. exact HD.
    + exact H2.
    + rewrite H7. exact Hl.
    + exists a'. split; [exact R1|].
      repeat split; congruence.
Qed.

Lemma ascending_weaken (lo lo' : Q) (fs : list Q) :
  lo' <= lo -> ascending lo fs -> ascending lo' fs.
Proof.
  destruct fs as [|f fs]; [auto|]. simpl. intros H [H1 H2].
  split; [lra|exact H2].
Qed.

Lemma ascending_tail (lo f : Q) (fs : list Q) :
  ascending lo (f :: fs) -> ascending lo fs.
Proof.
  simpl. intros [H1 H2]. apply (ascending_weaken f); [lra|exact H2].
Qed.

(** X6: once the frame counter is past a numeric duration (a timeline-bound
    clock skipped over the last frame), signals with growing frame numbers
    and the timeline not finished never finish the play-through: the counter
    stays past the duration, nothing is emitted and the subscription stays as
    it was. *)
Theorem overshoot_never_finishes (D f pq : Q) (fs : list Q) (a : animation) :
  duration a = VNum (Fin D) -> frame a = Fin f -> D < f ->
  prevFrame a = Fin pq -> ascending pq fs -> segments_ok a ->
  exists a' f',
    perform_all tween_at (signals_at fs) a = Done a'
    /\ frame a' = Fin f' /\ D < f'
    /\ emitted a' = emitted a /\ listening a' = listening a.
Proof.
  revert a f pq. induction fs as [|fn fs IH]; intros a f pq HD Hf Hlt Hp Hasc Hok.
  - exists a, f. repeat split; auto.
  - simpl. unfold clock_signal.
    destruct (listening a) eqn:Hl.
    + assert (Hnext : num_gt (currentDelay a) (Fin 0) = false ->
                exists F, next_frame (Fin fn) a = Fin F /\ D < F).
      { intros _. unfold next_frame. rewrite Hp, Hf. simpl num_truthy.
        destruct (isTimelineBound a); [|exists (f + 1); split; [reflexivity|lra]].
        destruct Hasc as [Hpf _].
        destruct (Qeq_bool pq 0) eqn:E0; simpl negb; cbv iota; simpl num_sub;
          simpl num_truthy.
        - rewrite Playback.Qeq_bool_true by lra. simpl.
          exists (f + 1). split; [reflexivity|lra].
        - rewrite Playback.Qeq_bool_false by lra. simpl.
          exists (f + (fn + - pq)). split; [reflexivity|lra]. }
      destruct (onStep_goes_on (Fin fn) false a Hok)
        as (a1 & H1 & H2 & H3 & H4 & _ & H6 & _ & _ & H8 & H9).
      { intros Hd. destruct (Hnext Hd) as (F & -> & HF).
        rewrite andb_false_r, HD. simpl.
        apply Playback.Qeq_bool_false. lra. }
      rewrite H1. simpl bind.
      destruct (num_gt (currentDelay a) (Fin 0)) eqn:Hd.
      * destruct (H8 eq_refl) as [F1 F2].
        destruct (IH a1 f pq) as (a' & f' & R1 & R2 & R3 & R4 & R5);
          try congruence.
        { exact (ascending_tail _ _ _ Hasc). }
        exists a', f'. repeat split; congruence.
      * destruct (H9 eq_refl) as [F1 F2].
        destruct (Hnext eq_refl) as (F & HF & HltF).
        destruct (IH a1 F fn) as (a' & f' & R1 & R2 & R3 & R4 & R5);
          try congruence.
        { exact (proj2 Hasc). }
        exists a', f'. repeat split; congruence.
    + simpl bind.
      destruct (IH a f pq) as (a' & f' & R1 & R2 & R3 & R4 & R5);
        try assumption.
      { exact (ascending_tail _ _ _ Hasc). }
      exists a', f'. repeat split; congruence.
Qed.

End WithTween.

Lemma three_keys_segments_ok : segments_ok three_keys_state.
Proof. split; [simpl; lia|repeat constructor]. Qed.

Lemma timeline_bound_segments_ok : segments_ok timeline_bound.
Proof. split; [simpl; lia|repeat constructor]. Qed.

Lemma overshot_segments_ok : segments_ok overshot.
Proof. split; [simpl; lia|repeat constructor]. Qed.

Lemma string_duration_segments_ok : segments_ok string_duration.
Proof. split; [simpl; lia|repeat constructor]. Qed.

Lemma subscribed_while_playing_witness :
  listening
    (state_of
       (perform_all linear_at
          [CallPlay; Signal (Fin 1) false; CallPause; Signal (Fin 2) false;
           CallPlay; CallReset]
          three_keys_state))
  = isPlaying
      (state_of
         (perform_all linear_at
            [CallPlay; Signal (Fin 1) false; CallPause; Signal (Fin 2) false;
             CallPlay; CallReset]
            three_keys_state)).
Proof.
  apply (subscribed_while_playing linear_at). reflexivity.
Defined.

Lemma finished_timeline_completes_witness :
  exists a',
    onStep linear_at (Fin 4) true timeline_bound = Done a'
    /\ frame a' = Fin 0 /\ currentTweenIndex a' = 0%nat
    /\ currentDelay a' = delay timeline_bound /\ prevFrame a' = Fin 0
    /\ emitted a'
       = (emitted timeline_bound
          ++ if num_eqb (repeat timeline_bound) PInf
                || num_gt (repeat timeline_bound) (Fin 0)
             then ["beforebegin"; "play"] else ["end"])%list.
Proof.
  apply (finished_timeline_completes linear_at (Fin 4) timeline_bound).
  - reflexivity.
  - reflexivity.
  - exact timeline_bound_segments_ok.
Defined.

Lemma string_duration_never_finishes_witness :
  exists a',
    perform_all linear_at
      (map (fun x => Signal (fst x) (snd x))
         [(Fin 1, false); (Fin 2, false); (Fin 9, true); (Fin 10, false)])
      string_duration
    = Done a'
    /\ emitted a' = emitted string_duration
    /\ listening a' = listening string_duration
    /\ isPlaying a' = isPlaying string_duration /\ duration a' = VStr "9".
Proof.
  apply (string_duration_never_finishes linear_at "9"
           [(Fin 1, false); (Fin 2, false); (Fin 9, true); (Fin 10, false)]
           string_duration).
  - reflexivity.
  - exact string_duration_segments_ok.
  - repeat constructor.
Defined.

Lemma overshoot_never_finishes_witness :
  exists a' f',
    perform_all linear_at (signals_at [21; 25; 26]) overshot = Done a'
    /\ frame a' = Fin f' /\ 10 < f'
    /\ emitted a' = emitted overshot /\ listening a' = listening overshot.
Proof.
  apply (overshoot_never_finishes linear_at 10 20 20 [21; 25; 26] overshot).
  - reflexivity.
  - reflexivity.
  - reflexivity.
  - reflexivity.
  - simpl. repeat split; reflexivity.
  - exact overshot_segments_ok.
Defined.

End Lifecycle.

(** ** Construction and bindings *)

Module Construction.

Import Scenario.
Local Open Scope string_scope.

Section WithCollaborators.

Variable toFrameNumber : value -> num.
Variable tween_at :
  option obj -> option obj -> option (num -> num) -> num -> obj.

(** *** The windows depend on the keys and the duration only *)

Lemma createTweens_loop_windows (a a' : animation) (ks : list num) (T : num)
    (prev prev' : option obj) (acc acc' : list tween) :
  duration a = duration a' -> map window acc = map window acc' ->
  map window (snd (createTweens_loop a ks (T, prev, acc)))
  = map window (snd (createTweens_loop a' ks (T, prev', acc'))).
Proof.
  intros HD. revert T prev prev' acc acc'.
  induction ks as [|k ks IH]; intros T prev prev' acc acc' Hacc.
  - exact Hacc.
  - unfold createTweens_loop in *. simpl fold_left.
    destruct (num_eqb k (Fin 0)).
    + apply IH. exact Hacc.
    + apply IH. rewrite !map_app, Hacc, HD. reflexivity.
Qed.

Lemma createTweens_windows_same (a a' : animation) (sv sv' : obj) :
  keys a = keys a' -> duration a = duration a' ->
  map window (_createTweens sv a) = map window (_createTweens sv' a').
Proof.
  intros HK HD. unfold _createTweens. rewrite HK.
  apply createTweens_loop_windows; [exact HD|reflexivity].
Qed.

(** *** What [addSubject] leaves *)

Lemma set_keyframes_same (a : animation) : set_keyframes (keyframes a) a = a.
Proof. destruct a; reflexivity. Qed.

Lemma addSubject_cases (s : nat) (a : animation) :
  exists kfs,
    let a1 := set_keyframes kfs a in
    let init := mixin (heap_get (attrs a) s) (kf_at (keyframes a) (Fin 0)) in
    addSubject tween_at s a
    = Done (set_subjects
              (subjects a ++ [mkBinding s (_createTweens init a1)]) a1)
    \/ (subjects a = [] /\ exists e, addSubject tween_at s a = Raised e a1).
Proof.
  unfold addSubject.
  destruct (is_nil (subjects a)) eqn:Hn.
  - unfold _fillInProperties.
    destruct (fill_frames _ _ _ _ _ _ _) as [kfs|e kfs]; exists kfs; simpl.
    + left. reflexivity.
    + right. split; [destruct (subjects a); [reflexivity|discriminate]|].
      exists e. reflexivity.
  - exists (keyframes a). cbv zeta. rewrite set_keyframes_same. left.
    reflexivity.
Qed.

Lemma shared_windows_same (a a' : animation) :
  keys a' = keys a -> duration a' = duration a -> subjects a' = subjects a ->
  shared_windows a -> shared_windows a'.
Proof.
  unfold shared_windows. intros HK HD -> H.
  eapply Forall_impl; [|exact H]. simpl. intros b ->.
  apply createTweens_windows_same; congruence.
Qed.

Lemma addSubject_shared_windows (s : nat) (a : animation) :
  shared_windows a ->
  shared_windows (state_of (addSubject tween_at s a))
  /\ keys (state_of (addSubject tween_at s a)) = keys a
  /\ duration (state_of (addSubject tween_at s a)) = duration a
  /\ currentTweenIndex (state_of (addSubject tween_at s a))
     = currentTweenIndex a
  /\ listening (state_of (addSubject tween_at s a)) = listening a
  /\ isPlaying (state_of (addSubject tween_at s a)) = isPlaying a.
Proof.
  intros H. destruct (addSubject_cases s a) as (kfs & [Hr|(Hs & e & Hr)]);
    cbv zeta in Hr; rewrite Hr; simpl; (split; [|auto]).
  - unfold shared_windows. simpl. apply Forall_app. split.
    + eapply Forall_impl; [|exact H]. simpl. intros b ->.
      apply createTweens_windows_same; reflexivity.
    + constructor; [|constructor]. simpl.
      apply createTweens_windows_same; reflexivity.
  - apply (shared_windows_same a); try reflexivity. exact H.
Qed.

Lemma addSubjects_shared_windows (l : list nat) (a : animation) :
  shared_windows a ->
  shared_windows (state_of (addSubjects tween_at l a))
  /\ keys (state_of (addSubjects tween_at l a)) = keys a
  /\ duration (state_of (addSubjects tween_at l a)) = duration a
  /\ currentTweenIndex (state_of (addSubjects tween_at l a))
     = currentTweenIndex a
  /\ listening (state_of (addSubjects tween_at l a)) = listening a
  /\ isPlaying (state_of (addSubjects tween_at l a)) = isPlaying a.
Proof.
  revert a. induction l as [|s l IH]; intros a H; [simpl; auto 6|].
  simpl. destruct (addSubject_shared_windows s a H)
    as (H1 & H2 & H3 & H4 & H5 & H6).
  destruct (addSubject tween_at s a) as [a1|e a1]; simpl in *.
  - destruct (IH a1 H1) as (I1 & I2 & I3 & I4 & I5 & I6).
    repeat split; congruence.
  - auto 6.
Qed.

(** *** The constructor *)

Lemma KeyframeAnimation_eq (duration_ : value)
    (keyframes_ : list (string * obj)) (o : options) (h : heap) :
  KeyframeAnimation toFrameNumber tween_at duration_ keyframes_ o h
  = match opt_subjects o with
    | Some l =>
        addSubjects tween_at l
          (before_subjects toFrameNumber duration_ keyframes_ o h)
    | None => Done (before_subjects toFrameNumber duration_ keyframes_ o h)
    end.
Proof.
  unfold before_subjects, KeyframeAnimation. simpl.
  destruct (_convertKeysToFrames _ _ _) as [clean a1].
  destruct (opt_subjects o); reflexivity.
Qed.

Lemma before_subjects_fields (duration_ : value)
    (keyframes_ : list (string * obj)) (o : options) (h : heap) :
  let a := before_subjects toFrameNumber duration_ keyframes_ o h in
  subjects a = [] /\ currentTweenIndex a = 0%nat
  /\ listening a = false /\ isPlaying a = false
  /\ frame a = Fin 0 /\ emitted a = [] /\ animations a = None
  /\ keys a = sort_keys (map pkey_number (map fst (keyframes a))).
Proof.
  unfold before_subjects, KeyframeAnimation, _convertKeysToFrames. simpl.
  destruct (convert_loop _ _ _ _ _) as [clean maxFrame]. simpl.
  destruct (js_gt maxFrame _); simpl; auto 10.
Qed.

(** The animation after the constructor and further [addSubject] calls. *)
Lemma constructed_fields (duration_ : value)
    (keyframes_ : list (string * obj)) (o : options) (h : heap)
    (later : list nat) :
  let a :=
    state_of
      (bind (KeyframeAnimation toFrameNumber tween_at duration_ keyframes_ o h)
         (addSubjects tween_at later)) in
  shared_windows a /\ currentTweenIndex a = 0%nat
  /\ listening a = false /\ isPlaying a = false.
Proof.
  cbv zeta. rewrite KeyframeAnimation_eq.
  destruct (before_subjects_fields duration_ keyframes_ o h)
    as (B1 & B2 & B3 & B4 & _).
  set (a0 := before_subjects toFrameNumber duration_ keyframes_ o h) in *.
  assert (H0 : shared_windows a0).
  { unfold shared_windows. rewrite B1. constructor. }
  assert (step1 : forall m : outcome animation,
            shared_windows (state_of m) ->
            currentTweenIndex (state_of m) = 0%nat ->
            listening (state_of m) = false ->
            isPlaying (state_of m) = false ->
            shared_windows (state_of (bind m (addSubjects tween_at later)))
            /\ currentTweenIndex
                 (state_of (bind m (addSubjects tween_at later))) = 0%nat
            /\ listening (state_of (bind m (addSubjects tween_at later)))
               = false
            /\ isPlaying (state_of (bind m (addSubjects tween_at later)))
               = false).
  { intros [a1|e a1] H1 H2 H3 H4; simpl in *; [|auto].
    destruct (addSubjects_shared_windows later a1 H1)
      as (I1 & _ & _ & I4 & I5 & I6).
    repeat split; congruence. }
  destruct (opt_subjects o) as [l|].
  - destruct (addSubjects_shared_windows l a0 H0)
      as (I1 & _ & _ & I4 & I5 & I6).
    apply step1; congruence.
  - apply step1; assumption.
Qed.

Lemma shared_windows_count (a : animation) (b : binding) :
  shared_windows a -> In b (subjects a) ->
  List.length (tweens b) = segment_count (keys a).
Proof.
  unfold shared_windows. rewrite Forall_forall. intros H Hb.
  rewrite <- (length_map window), (H b Hb), length_map.
  apply Segments.createTweens_length.
Qed.

(** X7: every binding of an animation has the same progress windows, as
    many as there are keys other than 0: the constructor and every later
    [addSubject] build them from the same keys and duration, whatever the
    attributes of the subject. *)
Theorem subjects_share_windows (duration_ : value)
    (keyframes_ : list (string * obj)) (o : options) (h : heap)
    (later : list nat) :
  let a :=
    state_of
      (bind (KeyframeAnimation toFrameNumber tween_at duration_ keyframes_ o h)
         (addSubjects tween_at later)) in
  forall b, In b (subjects a) ->
    List.length (tweens b) = segment_count (keys a)
    /\ forall b', In b' (subjects a) ->
         map window (tweens b) = map window (tweens b').
Proof.
  intros a b Hb.
  destruct (constructed_fields duration_ keyframes_ o h later) as (H & _).
  fold a in H. split.
  - apply shared_windows_count; assumption.
  - unfold shared_windows in H. rewrite Forall_forall in H.
    intros b' Hb'. rewrite (H b Hb), (H b' Hb'). reflexivity.
Qed.

(** X3: an animation with a subject and a key other than 0 never throws
    from [play], [pause], [reset] or a clock signal, in any order. *)
Theorem calls_never_throw (duration_ : value)
    (keyframes_ : list (string * obj)) (o : options) (h : heap)
    (later : list nat) (a : animation) (cs : list call) :
  bind (KeyframeAnimation toFrameNumber tween_at duration_ keyframes_ o h)
    (addSubjects tween_at later) = Done a ->
  subjects a <> [] -> (0 < segment_count (keys a))%nat ->
  exists a', perform_all tween_at cs a = Done a'.
Proof.
  intros Hc Hs Hk.
  pose proof (constructed_fields duration_ keyframes_ o h later) as Hf.
  rewrite Hc in Hf. simpl in Hf.
  destruct Hf as (Hw & Hi & _).
  destruct (Lifecycle.perform_all_segments_ok tween_at cs a) as (a' & H & _);
    [|exists a'; exact H].
  unfold segments_ok. destruct (subjects a) as [|first rest] eqn:E;
    [contradiction|].
  assert (Hn : forall b, In b (first :: rest) ->
                 List.length (tweens b) = segment_count (keys a)).
  { intros b Hb. apply shared_windows_count; [exact Hw|].
    rewrite E. exact Hb. }
  split.
  - rewrite Hi, (Hn first (or_introl eq_refl)). exact Hk.
  - rewrite Forall_forall. intros b Hb.
    rewrite (Hn b Hb), (Hn first (or_introl eq_refl)). reflexivity.
Qed.

End WithCollaborators.

Lemma subjects_share_windows_witness :
  List.length (tweens first_binding)
  = segment_count
      (keys
         (state_of
            (bind (three_keys (free_running [1; 2]%nat))
               (addSubjects linear_at [3%nat]))))
  /\ forall b',
       In b'
         (subjects
            (state_of
               (bind (three_keys (free_running [1; 2]%nat))
                  (addSubjects linear_at [3%nat])))) ->
       map window (tweens first_binding) = map window (tweens b').
Proof.
  apply (subjects_share_windows no_clock linear_at (vnum 10)
           [("0", [("x", vnum 0)]); ("5", [("x", vnum 50)]);
            ("10", [("x", vnum 100)])]
           (free_running [1; 2]%nat)
           [(1%nat, [("x", vnum 7)]); (2%nat, [("x", vnum 9)])] [3%nat]
           first_binding).
  vm_compute. left. reflexivity.
Defined.

Lemma calls_never_throw_witness :
  exists a',
    perform_all linear_at
      [CallPlay; Signal (Fin 1) false; Signal (Fin 2) true; CallPause;
       Signal (Fin 3) false; CallReset; CallPlay]
      three_keys_state
    = Done a'.
Proof.
  apply (calls_never_throw no_clock linear_at (vnum 10)
           [("0", [("x", vnum 0)]); ("5", [("x", vnum 50)]);
            ("10", [("x", vnum 100)])]
           (free_running [1; 2]%nat)
           [(1%nat, [("x", vnum 7)]); (2%nat, [("x", vnum 9)])] []
           three_keys_state).
  - vm_compute. reflexivity.
  - discriminate.
  - vm_compute. lia.
Defined.

End Construction.

(** ** Removing subjects *)

Module Removal.

Lemma splice1_middle {A} (pre : list A) (b : A) (suf : list A) :
  splice1 (pre ++ b :: suf) (List.length pre) = (pre ++ suf)%list.
Proof.
  unfold splice1.
  rewrite firstn_app, firstn_all, Nat.sub_diag. simpl firstn.
  rewrite app_nil_r.
  replace (S (List.length pre)) with (List.length (pre ++ [b])).
  2:{ rewrite length_app. simpl. lia. }
  replace (pre ++ b :: suf)%list with ((pre ++ [b]) ++ suf)%list.
  2:{ rewrite <- app_assoc. reflexivity. }
  rewrite skipn_app, skipn_all, Nat.sub_diag. reflexivity.
Qed.

(** Once a binding is gone the loop runs to the length read before: it
    reads past the end of the array. *)
Lemma removeSubject_loop_overrun (n i s : nat) (a : animation) :
  (0 < n)%nat -> (List.length (subjects a) < i + n)%nat ->
  exists a', removeSubject_loop n i s a = Raised TypeError a'
             /\ (List.length (subjects a') <= List.length (subjects a))%nat.
Proof.
  revert i a. induction n as [|n IH]; intros i a Hn Hlen; [lia|].
  simpl. destruct (nth_error (subjects a) i) as [b|] eqn:Hb.
  - assert (Hi : (i < List.length (subjects a))%nat).
    { apply nth_error_Some. congruence. }
    destruct (Nat.eqb (subject b) s).
    + cbv zeta. cbn [animations set_subjects].
      destruct (animations a) eqn:Ha.
      * destruct (IH (S i) (set_subjects (splice1 (subjects a) i) a))
          as (a' & H & Hl).
        -- lia.
        -- simpl. unfold splice1.
           rewrite length_app, length_firstn, length_skipn. lia.
        -- exists a'. split; [exact H|]. simpl in Hl. unfold splice1 in Hl.
           rewrite length_app, length_firstn, length_skipn in Hl. lia.
      * eexists. split; [reflexivity|]. simpl. unfold splice1.
        rewrite length_app, length_firstn, length_skipn. lia.
    + destruct (IH (S i) a) as (a' & H & Hl); [lia|lia|].
      exists a'. split; assumption.
  - exists a. split; [reflexivity|lia].
Qed.

Lemma removeSubject_loop_cases (s : nat) (a : animation)
    (pre suf : list binding) :
  subjects a = (pre ++ suf)%list ->
  (Forall (fun b => subject b <> s) suf
   /\ removeSubject_loop (List.length suf) (List.length pre) s a = Done a)
  \/ (exists l b,
        suf = (l ++ [b])%list /\ Forall (fun b => subject b <> s) l
        /\ subject b = s /\ animations a <> None
        /\ removeSubject_loop (List.length suf) (List.length pre) s a
           = Done (set_subjects (pre ++ l) a))
  \/ (exists a',
        removeSubject_loop (List.length suf) (List.length pre) s a
        = Raised TypeError a'
        /\ Exists (fun b => subject b = s) suf
        /\ (List.length (subjects a') < List.length (subjects a))%nat).
Proof.
  revert pre. induction suf as [|b suf IH]; intros pre Hs.
  - left. split; [constructor|reflexivity].
  - simpl removeSubject_loop.
    assert (Hb : nth_error (subjects a) (List.length pre) = Some b).
    { rewrite Hs, nth_error_app2, Nat.sub_diag by lia. reflexivity. }
    rewrite Hb. destruct (Nat.eqb_spec (subject b) s) as [E|Hne].
    + right. rewrite Hs, splice1_middle. simpl animations.
      destruct (animations a) as [children|] eqn:Ha.
      * destruct suf as [|b2 suf].
        -- left. exists [], b. simpl. rewrite app_nil_r.
           repeat split; try assumption; try constructor. discriminate.
        -- right.
           destruct (removeSubject_loop_overrun (List.length (b2 :: suf))
                       (S (List.length pre)) s
                       (set_subjects (pre ++ b2 :: suf) a))
             as (a' & H & Hl).
           ++ simpl. lia.
           ++ simpl. rewrite length_app. simpl. lia.
           ++ exists a'. split; [exact H|]. split; [left; exact E|].
              simpl in Hl. rewrite length_app in *. simpl in *. lia.
      * right. eexists. split; [reflexivity|]. split; [left; exact E|].
        simpl. rewrite !length_app. simpl. lia.
    + assert (Hs' : subjects a = ((pre ++ [b]) ++ suf)%list).
      { rewrite Hs, <- app_assoc. reflexivity. }
      specialize (IH (pre ++ [b])%list Hs').
      replace (List.length (pre ++ [b])) with (S (List.length pre)) in IH.
      2:{ rewrite length_app. simpl. lia. }
      destruct IH as [(Hall & H)|[(l & b' & El & Hl & Hb' & Ha & H)
                                 |(a' & H & Hex & Hlen)]].
      * left. split; [constructor; assumption|exact H].
      * right. left. exists (b :: l), b'. subst suf.
        repeat split; try assumption; [constructor; assumption|].
        rewrite H, <- app_assoc. reflexivity.
      * right. right. exists a'. split; [exact H|].
        split; [right; exact Hex|exact Hlen].
Qed.

(** X8: [removeSubject] returns in two cases only: no binding holds the
    subject, and nothing changes; or [animations] is set and the only
    binding of the subject is the last one, which is removed.  In every
    other case it throws a [TypeError] after it removed a binding. *)
Theorem removeSubject_outcomes (s : nat) (a : animation) :
  (Forall (fun b => subject b <> s) (subjects a)
   /\ removeSubject s a = Done a)
  \/ (exists l b,
        subjects a = (l ++ [b])%list /\ Forall (fun b => subject b <> s) l
        /\ subject b = s /\ animations a <> None
        /\ removeSubject s a = Done (set_subjects l a))
  \/ (exists a',
        removeSubject s a = Raised TypeError a'
        /\ Exists (fun b => subject b = s) (subjects a)
        /\ (List.length (subjects a') < List.length (subjects a))%nat).
Proof.
  exact (removeSubject_loop_cases s a [] (subjects a) eq_refl).
Qed.

(** X20: while [animations] is not set, as the constructor leaves it,
    [removeSubjects] returns only when none of the subjects is bound, and
    then nothing has changed: it never returns with a binding removed. *)
Theorem removeSubjects_removes_nothing (l : list nat) (a a' : animation) :
  animations a = None ->
  removeSubjects l a = Done a' <->
  a' = a /\ Forall (fun s => Forall (fun b => subject b <> s) (subjects a)) l.
Proof.
  intros Ha. induction l as [|s l IH]; simpl.
  - split.
    + intros [= <-]. split; [reflexivity|constructor].
    + intros [-> _]. reflexivity.
  - destruct (removeSubject_loop_cases s a [] (subjects a) eq_refl)
      as [(Hall & H)|[(l0 & b & _ & _ & _ & Hne & _)|(a1 & H & Hex & _)]].
    + change (removeSubject s a = Done a) in H.
      rewrite H. simpl. rewrite IH. split.
      * intros [-> Hl]. split; [reflexivity|constructor; assumption].
      * intros [-> Hl]. split; [reflexivity|].
        inversion Hl; assumption.
    + contradiction.
    + change (removeSubject s a = Raised TypeError a1) in H.
      rewrite H. simpl. split; [discriminate|].
      intros [_ Hl]. inversion Hl as [|s' l' Hs Hl']; subst.
      apply Exists_exists in Hex. destruct Hex as (b & Hb & Eb).
      rewrite Forall_forall in Hs. destruct (Hs b Hb Eb).
Qed.

Lemma removeSubjects_removes_nothing_witness :
  animations Scenario.three_keys_state = None
  /\ removeSubjects [3; 4]%nat Scenario.three_keys_state
     = Done Scenario.three_keys_state.
Proof.
  split; [reflexivity|].
  apply (removeSubjects_removes_nothing [3; 4]%nat Scenario.three_keys_state
           Scenario.three_keys_state); [reflexivity|].
  split; [reflexivity|repeat constructor; discriminate].
Defined.

End Removal.

(** ** Labels and keys *)

Module Labels.

Section WithCollaborators.

Variable toFrameNumber : value -> num.
Variable tween_at :
  option obj -> option obj -> option (num -> num) -> num -> obj.

Lemma find_last {A} (f : A -> bool) (l : list A) (x : A) :
  find f (l ++ [x])
  = match find f l with
    | Some y => Some y
    | None => if f x then Some x else None
    end.
Proof.
  induction l as [|y l IH]; simpl; [reflexivity|].
  destruct (f y); [reflexivity|exact IH].
Qed.

Lemma convert_loop_get (d : value) (entries : list (string * obj))
    (clean : kfmap) (maxFrame : value) (k : pkey) :
  kf_get (fst (convert_loop toFrameNumber d entries clean maxFrame)) k
  = match
      find
        (fun e =>
           pkey_eqb (property_key (resolve_frame toFrameNumber d (fst e))) k)
        (rev entries)
    with
    | Some e => Some (snd e)
    | None => kf_get clean k
    end.
Proof.
  revert clean maxFrame.
  induction entries as [|[key props] rest IH]; intros clean maxFrame;
    [reflexivity|].
  simpl convert_loop. rewrite IH. simpl rev. rewrite find_last.
  destruct (find _ (rev rest)); [reflexivity|].
  rewrite GapFiller.kf_get_set. simpl fst.
  destruct (pkey_eqb _ k); reflexivity.
Qed.

(** X9: the keyframe object [_convertKeysToFrames] returns holds, under a
    key, the properties of the last label that resolves to that key, and
    nothing under a key no label resolves to: labels for one frame, such as
    [0] and [from], replace one another. *)
Theorem convertKeysToFrames_last_label_wins (entries : list (string * obj))
    (a : animation) (k : pkey) :
  kf_get (fst (_convertKeysToFrames toFrameNumber entries a)) k
  = option_map snd
      (find
         (fun e =>
            pkey_eqb
              (property_key (resolve_frame toFrameNumber (duration a) (fst e)))
              k)
         (rev entries)).
Proof.
  unfold _convertKeysToFrames.
  pose proof (convert_loop_get (duration a) entries [] (VNum (Fin 0)) k) as H.
  destruct (convert_loop _ _ _ _ _) as [clean maxFrame]. simpl in *.
  rewrite H. destruct (find _ _); reflexivity.
Qed.

(** *** The sort *)

Lemma sort_insert_perm (x : num) (l : list num) :
  Permutation (x :: l) (sort_insert x l).
Proof.
  induction l as [|y l IH]; cbn [sort_insert]; [apply Permutation_refl|].
  destruct (num_gt (Fin 0) (num_sub x y)); [apply Permutation_refl|].
  eapply perm_trans; [apply perm_swap|]. apply perm_skip. exact IH.
Qed.

Lemma sort_fold_perm (l acc : list num) :
  Permutation (acc ++ l)
    (fold_left (fun acc x => sort_insert x acc) l acc).
Proof.
  revert acc. induction l as [|x l IH]; intros acc; simpl.
  - rewrite app_nil_r. apply Permutation_refl.
  - eapply perm_trans; [|apply IH].
    eapply perm_trans; [apply Permutation_sym, Permutation_middle|].
    apply (Permutation_app_tail l (sort_insert_perm x acc)).
Qed.

Lemma sort_keys_perm (l : list num) : Permutation l (sort_keys l).
Proof. exact (sort_fold_perm l []). Qed.

Lemma compare_finite (x y : Q) :
  num_gt (Fin 0) (num_sub (Fin x) (Fin y)) = num_gt (Fin y) (Fin x).
Proof.
  unfold num_sub, num_neg, num_add, num_gt. f_equal.
  destruct (Qle_bool 0 (x + - y)) eqn:E1, (Qle_bool y x) eqn:E2;
    try reflexivity.
  - apply Qle_bool_iff in E1.
    assert (Qle_bool y x = true) by (apply Qle_bool_iff; lra). congruence.
  - apply Qle_bool_iff in E2.
    assert (Qle_bool 0 (x + - y) = true) by (apply Qle_bool_iff; lra).
    congruence.
Qed.

Lemma num_gt_total (x y : Q) :
  num_gt (Fin y) (Fin x) = true -> num_gt (Fin x) (Fin y) = false.
Proof.
  unfold num_gt. intros H. apply negb_true_iff in H. apply negb_false_iff.
  apply Qle_bool_iff.
  destruct (Qlt_le_dec x y) as [Hlt|Hle]; [lra|].
  apply Qle_bool_iff in Hle. congruence.
Qed.

Lemma sort_insert_in_order (x : num) (l : list num) :
  num_finite x = true -> Forall (fun k => num_finite k = true) l ->
  in_order l -> in_order (sort_insert x l).
Proof.
  destruct x as [x| | |]; try discriminate. intros _.
  induction l as [|y l IH]; intros Hf Ho; [exact I|].
  inversion Hf as [|y' l' Hy Hl]; subst.
  destruct y as [y| | |]; try discriminate.
  cbn [sort_insert]. rewrite compare_finite.
  destruct (num_gt (Fin y) (Fin x)) eqn:E.
  - split; [apply num_gt_total; exact E|exact Ho].
  - destruct l as [|z l].
    + simpl. split; [exact E|exact I].
    + destruct Ho as [Hyz Ho]. specialize (IH Hl Ho).
      inversion Hl as [|z' l'' Hz Hl']; subst.
      destruct z as [z| | |]; try discriminate.
      cbn [sort_insert] in *. rewrite compare_finite in *.
      destruct (num_gt (Fin z) (Fin x)).
      * split; [exact E|exact IH].
      * split; [exact Hyz|exact IH].
Qed.

Lemma sort_fold_in_order (l acc : list num) :
  Forall (fun k => num_finite k = true) l ->
  Forall (fun k => num_finite k = true) acc -> in_order acc ->
  in_order (fold_left (fun acc x => sort_insert x acc) l acc).
Proof.
  revert acc. induction l as [|x l IH]; intros acc Hl Hacc Ho; [exact Ho|].
  inversion Hl as [|x' l' Hx Hl']; subst. simpl. apply IH.
  - exact Hl'.
  - eapply Permutation_Forall; [apply sort_insert_perm|].
    constructor; assumption.
  - apply sort_insert_in_order; assumption.
Qed.

Lemma sort_keys_in_order (l : list num) :
  Forall (fun k => num_finite k = true) l -> in_order (sort_keys l).
Proof.
  intros H. apply sort_fold_in_order; [exact H|constructor|exact I].
Qed.

(** *** The keys of the keyframe object stay *)

Lemma kf_set_keys (m : kfmap) (k : pkey) (o o' : obj) :
  kf_get m k = Some o' -> map fst (kf_set m k o) = map fst m.
Proof.
  induction m as [|[k1 o1] m IH]; simpl; [discriminate|].
  destruct (pkey_eqb k1 k); simpl; [reflexivity|].
  intros H. rewrite (IH H). reflexivity.
Qed.

Lemma fill_property_keys (a : animation) (initialValues : obj) (frame : num)
    (i : nat) (p : string) (kfs : kfmap) :
  map fst (state_of (fill_property tween_at a initialValues frame i p kfs))
  = map fst kfs.
Proof.
  unfold fill_property.
  destruct (kf_at kfs frame) as [keyframe|] eqn:Hk; [|reflexivity].
  destruct (obj_has keyframe p); [reflexivity|].
  destruct (getFrameOfLastDefinedProperty _ _ _ _) as [prevFrame|];
    [|reflexivity].
  destruct (getFrameOfNextDefinedProperty _ _ _ _) as [nextFrame|];
    [|reflexivity].
  destruct (frame_and_value kfs prevFrame p) as [pv|]; [|reflexivity].
  destruct (frame_and_value kfs nextFrame p) as [nv|]; [|reflexivity].
  destruct (is_nullish (js_or pv (obj_get initialValues p))); [reflexivity|].
  destruct (if is_nullish nv then _ else _) as [nextValue nextFrame'].
  simpl. exact (kf_set_keys _ _ _ _ Hk).
Qed.

Lemma fill_properties_keys (a : animation) (initialValues : obj) (frame : num)
    (i : nat) (props : list string) (kfs : kfmap) :
  map fst
    (state_of (fill_properties tween_at a initialValues frame i props kfs))
  = map fst kfs.
Proof.
  revert kfs. induction props as [|p props IH]; intros kfs; [reflexivity|].
  simpl. pose proof (fill_property_keys a initialValues frame i p kfs) as H.
  destruct (fill_property tween_at a initialValues frame i p kfs)
    as [kfs1|e kfs1]; simpl in *; [|exact H].
  rewrite IH. exact H.
Qed.

Lemma fill_frames_keys (a : animation) (initialValues : obj)
    (props : list string) (frames : list num) (i : nat) (kfs : kfmap) :
  map fst
    (state_of (fill_frames tween_at a initialValues props frames i kfs))
  = map fst kfs.
Proof.
  revert i kfs. induction frames as [|frame frames IH]; intros i kfs;
    [reflexivity|].
  simpl.
  pose proof (fill_properties_keys a initialValues frame i props kfs) as H.
  destruct (fill_properties tween_at a initialValues frame i props kfs)
    as [kfs1|e kfs1]; simpl in *; [|exact H].
  rewrite IH. exact H.
Qed.

Lemma addSubject_keys (s : nat) (a : animation) :
  map fst (keyframes (state_of (addSubject tween_at s a)))
  = map fst (keyframes a)
  /\ keys (state_of (addSubject tween_at s a)) = keys a.
Proof.
  unfold addSubject. destruct (is_nil (subjects a)); [|split; reflexivity].
  unfold _fillInProperties.
  pose proof
    (fill_frames_keys a
       (mixin (heap_get (attrs a) s) (kf_at (keyframes a) (Fin 0)))
       (gather_properties (keys a) (keyframes a)) (keys a) 0 (keyframes a))
    as H.
  destruct (fill_frames _ _ _ _ _ _ _) as [kfs|e kfs]; simpl in *;
    split; auto.
Qed.

Lemma addSubjects_keys (l : list nat) (a : animation) :
  map fst (keyframes (state_of (addSubjects tween_at l a)))
  = map fst (keyframes a)
  /\ keys (state_of (addSubjects tween_at l a)) = keys a.
Proof.
  revert a. induction l as [|s l IH]; intros a; [split; reflexivity|].
  simpl. destruct (addSubject_keys s a) as [H1 H2].
  destruct (addSubject tween_at s a) as [a1|e a1]; simpl in *;
    [|split; assumption].
  destruct (IH a1) as [I1 I2]. split; congruence.
Qed.

(** X10: the keys of a constructed animation are the numbers of the keys of
    its keyframe object, one for each, and when all of them are finite no
    key is greater than the one after it. *)
Theorem keys_in_ascending_order (duration_ : value)
    (keyframes_ : list (string * obj)) (o : options) (h : heap) :
  let a :=
    state_of
      (KeyframeAnimation toFrameNumber tween_at duration_ keyframes_ o h) in
  Permutation (map pkey_number (map fst (keyframes a))) (keys a)
  /\ (Forall (fun k => num_finite k = true) (keys a) -> in_order (keys a)).
Proof.
  intros a.
  assert (H : keys a = sort_keys (map pkey_number (map fst (keyframes a)))).
  { unfold a. rewrite Construction.KeyframeAnimation_eq.
    destruct (Construction.before_subjects_fields toFrameNumber duration_
                keyframes_ o h) as (_ & _ & _ & _ & _ & _ & _ & B).
    cbv zeta in B.
    destruct (opt_subjects o) as [l|]; [|exact B].
    destruct (addSubjects_keys l
                (before_subjects toFrameNumber duration_ keyframes_ o h))
      as [H1 H2].
    rewrite H1, H2. exact B. }
  split.
  - rewrite H. apply sort_keys_perm.
  - intros Hf. rewrite H. apply sort_keys_in_order.
    eapply Permutation_Forall; [|exact Hf].
    apply Permutation_sym. rewrite H at 1. apply sort_keys_perm.
Qed.

(** *** Percentages *)

Lemma take_digits_percent (ds : list ascii) :
  forallb is_digit ds = true ->
  take_digits (ds ++ ["%"%char]) = (ds, ["%"%char]).
Proof.
  induction ds as [|c ds IH]; simpl; [reflexivity|].
  intros H. apply andb_true_iff in H. destruct H as [Hc Hds].
  rewrite Hc, (IH Hds). reflexivity.
Qed.

Lemma digit_is_not (c x : ascii) :
  is_digit c = true -> is_digit x = false -> Ascii.eqb c x = false.
Proof.
  intros Hc Hx. destruct (Ascii.eqb_spec c x) as [E|_]; [|reflexivity].
  subst. congruence.
Qed.

Lemma digits_are_no_number (c : ascii) (ds : list ascii) :
  is_digit c = true -> forallb is_digit ds = true ->
  string_to_number (string_of_list_ascii ((c :: ds) ++ ["%"%char])) = NaN.
Proof.
  intros Hc Hds. unfold string_to_number.
  rewrite list_ascii_of_string_of_list_ascii. simpl app. cbv iota beta.
  rewrite (digit_is_not c "-"%char Hc eq_refl).
  rewrite (digit_is_not c "+"%char Hc eq_refl).
  cbn [string_of_list_ascii String.eqb].
  rewrite (digit_is_not c "I"%char Hc eq_refl).
  unfold parse_unsigned.
  change (c :: (ds ++ ["%"%char])%list) with ((c :: ds) ++ ["%"%char])%list.
  rewrite take_digits_percent by (simpl; rewrite Hc; exact Hds).
  reflexivity.
Qed.

Lemma decimal_of_integer (ds : list ascii) :
  decimal_of ds [] == inject_Z (digits_val 0 ds).
Proof.
  unfold decimal_of. rewrite app_nil_r. simpl List.length.
  change (inject_Z (10 ^ Z.of_nat 0)) with 1. field.
Qed.

(** X11: a label of digits followed by [%] resolves to that percentage of
    the duration: [duration * N / 100]. *)
Theorem percent_label_resolves (ds : list ascii) (D : Q) :
  ds <> [] -> forallb is_digit ds = true ->
  exists q,
    resolve_frame toFrameNumber (VNum (Fin D))
      (string_of_list_ascii (ds ++ ["%"%char])) = VNum (Fin q)
    /\ q == D * inject_Z (digits_val 0 ds) / 100.
Proof.
  intros Hne Hds. destruct ds as [|c ds]; [contradiction|].
  assert (Hc : is_digit c = true).
  { simpl in Hds. apply andb_true_iff in Hds. tauto. }
  assert (Hds' : forallb is_digit ds = true).
  { simpl in Hds. apply andb_true_iff in Hds. tauto. }
  unfold resolve_frame, is_numeric_key. cbn [to_number].
  rewrite (digits_are_no_number c ds Hc Hds'). cbn [num_eqb].
  assert (Hfs : is_from_start (string_of_list_ascii ((c :: ds) ++ ["%"%char]))
                = false).
  { unfold is_from_start. cbn [app string_of_list_ascii String.eqb].
    rewrite (digit_is_not c "f"%char Hc eq_refl).
    rewrite (digit_is_not c "s"%char Hc eq_refl). reflexivity. }
  assert (Hte : is_to_end (string_of_list_ascii ((c :: ds) ++ ["%"%char]))
                = false).
  { unfold is_to_end. cbn [app string_of_list_ascii String.eqb].
    rewrite (digit_is_not c "t"%char Hc eq_refl).
    rewrite (digit_is_not c "e"%char Hc eq_refl). reflexivity. }
  rewrite Hfs, Hte.
  unfold is_percent, parseFloat.
  rewrite list_ascii_of_string_of_list_ascii, (take_digits_percent _ Hds).
  cbn [is_nil negb andb Ascii.eqb Bool.eqb num_mul num_div].
  change (Qeq_bool 100 0) with false. cbv iota.
  eexists. split; [reflexivity|].
  rewrite decimal_of_integer. reflexivity.
Qed.

End WithCollaborators.

Lemma keys_in_ascending_order_witness :
  in_order
    (keys
       (state_of
          (KeyframeAnimation no_clock linear_at (Scenario.vnum 20)
             [("to", [("x", Scenario.vnum 3)]);
              ("5", [("x", Scenario.vnum 2)]);
              ("25%", [("x", Scenario.vnum 1)]);
              ("from", [("x", Scenario.vnum 0)])]%string
             default_options []))).
Proof.
  apply (proj2
           (keys_in_ascending_order no_clock linear_at (Scenario.vnum 20)
              [("to", [("x", Scenario.vnum 3)]);
               ("5", [("x", Scenario.vnum 2)]);
               ("25%", [("x", Scenario.vnum 1)]);
               ("from", [("x", Scenario.vnum 0)])]%string
              default_options [])).
  vm_compute. repeat constructor.
Defined.

Lemma percent_label_resolves_witness :
  exists q,
    resolve_frame no_clock (VNum (Fin 10))
      (string_of_list_ascii (["5"; "0"] ++ ["%"])%char) = VNum (Fin q)
    /\ q == 10 * inject_Z (digits_val 0 ["5"; "0"]%char) / 100.
Proof.
  apply (percent_label_resolves no_clock ["5"; "0"]%char 10).
  - discriminate.
  - reflexivity.
Defined.

End Labels.

(** ** The options *)

Module Options.

Section WithCollaborators.

Variable toFrameNumber : value -> num.
Variable tween_at :
  option obj -> option obj -> option (num -> num) -> num -> obj.

(** [(options.repeat || 0) - (options.repeat % 1 || 0)] *)
Lemma before_subjects_repeat (duration_ : value)
    (keyframes_ : list (string * obj)) (o : options) (h : heap) :
  repeat (before_subjects toFrameNumber duration_ keyframes_ o h)
  = num_sub
      (to_number (js_or (opt_repeat o) (VNum (Fin 0))))
      (to_number
         (js_or (VNum (num_rem1 (to_number (opt_repeat o)))) (VNum (Fin 0)))).
Proof.
  unfold before_subjects, KeyframeAnimation, _convertKeysToFrames. simpl.
  destruct (convert_loop _ _ _ _ _) as [clean maxFrame]. simpl.
  destruct (js_gt maxFrame _); reflexivity.
Qed.

Lemma addSubject_repeat (s : nat) (a : animation) :
  repeat (state_of (addSubject tween_at s a)) = repeat a.
Proof.
  destruct (Construction.addSubject_cases tween_at s a)
    as (kfs & [H|(_ & e & H)]); cbv zeta in H; rewrite H; reflexivity.
Qed.

Lemma addSubjects_repeat (l : list nat) (a : animation) :
  repeat (state_of (addSubjects tween_at l a)) = repeat a.
Proof.
  revert a. induction l as [|s l IH]; intros a; [reflexivity|].
  simpl. pose proof (addSubject_repeat s a) as H.
  destruct (addSubject tween_at s a) as [a1|e a1]; simpl in *; [|exact H].
  rewrite IH. exact H.
Qed.

Lemma constructed_repeat (duration_ : value)
    (keyframes_ : list (string * obj)) (o : options) (h : heap) :
  repeat
    (state_of
       (KeyframeAnimation toFrameNumber tween_at duration_ keyframes_ o h))
  = num_sub
      (to_number (js_or (opt_repeat o) (VNum (Fin 0))))
      (to_number
         (js_or (VNum (num_rem1 (to_number (opt_repeat o)))) (VNum (Fin 0)))).
Proof.
  rewrite Construction.KeyframeAnimation_eq.
  destruct (opt_subjects o) as [l|]; simpl state_of.
  - rewrite addSubjects_repeat. apply before_subjects_repeat.
  - apply before_subjects_repeat.
Qed.

Lemma quot_bounds (q : Q) :
  let t := inject_Z (Z.quot (Qnum q) (Zpos (Qden q))) in
  (0 <= q -> t <= q /\ q < t + 1) /\ (q <= 0 -> q <= t /\ t - 1 < q).
Proof.
  destruct q as [n d]. cbv zeta. simpl Qnum. simpl Qden.
  pose proof (Z.quot_rem' n (Zpos d)) as E.
  split; intros H.
  - assert (Hn : (0 <= n)%Z).
    { unfold Qle in H. simpl in H. lia. }
    pose proof (Z.rem_bound_pos n (Zpos d) Hn eq_refl) as B.
    unfold Qle, Qlt, Qplus, inject_Z. simpl. split; nia.
  - assert (Hn : (n <= 0)%Z).
    { unfold Qle in H. simpl in H. lia. }
    pose proof (Z.rem_bound_pos_neg n (Zpos d) eq_refl Hn) as B.
    unfold Qle, Qlt, Qminus, Qplus, Qopp, inject_Z. simpl. split; nia.
Qed.

(** X12: the repeat count is the [repeat] option cut to a whole number
    towards zero (2.7 gives 2, -1.5 gives -1); no option gives 0 and
    [Infinity] stays. *)
Theorem repeat_is_truncated (duration_ : value)
    (keyframes_ : list (string * obj)) (e : option (num -> num))
    (subjects_ : option (list nat)) (delay_ tb : value) (h : heap) (q : Q) :
  let repeat_of r :=
    repeat
      (state_of
         (KeyframeAnimation toFrameNumber tween_at duration_ keyframes_
            (mkOptions e subjects_ delay_ r tb) h)) in
  let t := inject_Z (Z.quot (Qnum q) (Zpos (Qden q))) in
  num_equiv (repeat_of (VNum (Fin q))) (Fin t)
  /\ (0 <= q -> t <= q /\ q < t + 1) /\ (q <= 0 -> q <= t /\ t - 1 < q)
  /\ num_equiv (repeat_of VUndefined) (Fin 0)
  /\ repeat_of (VNum PInf) = PInf.
Proof.
  intros repeat_of t. unfold repeat_of. rewrite !constructed_repeat.
  cbn [opt_repeat to_number].
  split; [|split; [apply quot_bounds|split; [apply quot_bounds|]]].
  - unfold js_or, truthy, num_truthy, num_rem1. fold t.
    destruct (Qeq_bool q 0) eqn:E1, (Qeq_bool (q - t) 0) eqn:E2;
      cbn [negb to_number num_sub num_neg num_add num_equiv];
      repeat match goal with
             | H : Qeq_bool _ _ = true |- _ => apply Qeq_bool_iff in H
             | H : Qeq_bool _ _ = false |- _ => clear H
             end; lra.
  - split; [vm_compute; reflexivity|reflexivity].
Qed.

End WithCollaborators.

End Options.

(** ** The values of the segments *)

Module Values.

Lemma createTweens_loop_values (a : animation) (ks : list num) (T : num)
    (prev : option obj) (acc : list tween) :
  let targets :=
    map (kf_at (keyframes a))
      (filter (fun k => negb (num_eqb k (Fin 0))) ks) in
  map toValues (snd (createTweens_loop a ks (T, prev, acc)))
  = (map toValues acc ++ targets)%list
  /\ map fromValues (snd (createTweens_loop a ks (T, prev, acc)))
     = (map fromValues acc
        ++ firstn (List.length targets) (prev :: targets))%list.
Proof.
  revert T prev acc. induction ks as [|k ks IH]; intros T prev acc.
  - simpl. rewrite !app_nil_r. split; reflexivity.
  - unfold createTweens_loop in *. cbn [fold_left createTweens_step filter].
    destruct (num_eqb k (Fin 0)); cbn [negb]; [apply IH|].
    destruct (IH (num_add T (num_sub k T)) (kf_at (keyframes a) k)
                (acc ++
                 [mkTween prev (kf_at (keyframes a) k)
                    (num_div T (to_number (duration a)))
                    (num_add (num_div T (to_number (duration a)))
                       (num_div (num_sub k T) (to_number (duration a))))])%list)
      as [H1 H2].
    cbv zeta in *. rewrite H1, H2. rewrite !map_app. simpl.
    rewrite <- !app_assoc. split; reflexivity.
Qed.

(** X13: every segment [_createTweens] builds ends at the keyframe of its
    key, and starts from the values the segment before it ends at; the
    first one starts from the start values it is given. *)
Theorem createTweens_values_linked (startValues : obj) (a : animation) :
  let targets :=
    map (kf_at (keyframes a))
      (filter (fun k => negb (num_eqb k (Fin 0))) (keys a)) in
  map toValues (_createTweens startValues a) = targets
  /\ map fromValues (_createTweens startValues a)
     = firstn (List.length targets) (Some startValues :: targets).
Proof.
  exact (createTweens_loop_values a (keys a) (Fin 0) (Some startValues) []).
Qed.

End Values.

(** ** More on the gap filler *)

Module Filling.

Import Scenario.
Local Open Scope string_scope.

Lemma obj_get_set (o : obj) (p : string) (v : value) (q : string) :
  obj_get (obj_set o p v) q = if String.eqb p q then v else obj_get o q.
Proof.
  induction o as [|[k w] o IH]; simpl; [reflexivity|].
  destruct (String.eqb_spec k p) as [E|Hne]; simpl.
  - subst k. destruct (String.eqb p q); reflexivity.
  - destruct (String.eqb_spec k q) as [E|Hne'].
    + subst k. destruct (String.eqb_spec p q) as [E|_]; [|reflexivity].
      subst p. contradiction.
    + exact IH.
Qed.

Lemma keeps_refl (m : kfmap) : keeps m m.
Proof. intros k o H. exists o. split; [exact H|auto]. Qed.

Lemma keeps_trans (m1 m2 m3 : kfmap) :
  keeps m1 m2 -> keeps m2 m3 -> keeps m1 m3.
Proof.
  intros H12 H23 k o H. destruct (H12 k o H) as (o2 & H2 & Hp2).
  destruct (H23 k o2 H2) as (o3 & H3 & Hp3).
  exists o3. split; [exact H3|]. intros p Hp.
  destruct (Hp2 p Hp) as [Hh2 Hg2]. destruct (Hp3 p Hh2) as [Hh3 Hg3].
  split; congruence.
Qed.

Lemma truthy_not_nullish (v : value) :
  truthy v = true -> is_nullish v = false.
Proof. destruct v; simpl; congruence. Qed.

Section Fill.

Variable tween_at :
  option obj -> option obj -> option (num -> num) -> num -> obj.
Variable a : animation.
Variable initialValues : obj.

Lemma fill_property_keeps (frame : num) (i : nat) (p : string)
    (kfs : kfmap) :
  keeps kfs
    (state_of (fill_property tween_at a initialValues frame i p kfs)).
Proof.
  unfold fill_property.
  destruct (kf_at kfs frame) as [keyframe|] eqn:Hk; [|apply keeps_refl].
  destruct (obj_has keyframe p) eqn:Hp; [apply keeps_refl|].
  destruct (getFrameOfLastDefinedProperty _ _ _ _) as [prevFrame|];
    [|apply keeps_refl].
  destruct (getFrameOfNextDefinedProperty _ _ _ _) as [nextFrame|];
    [|apply keeps_refl].
  destruct (frame_and_value kfs prevFrame p) as [pv|]; [|apply keeps_refl].
  destruct (frame_and_value kfs nextFrame p) as [nv|]; [|apply keeps_refl].
  destruct (is_nullish (js_or pv (obj_get initialValues p)));
    [apply keeps_refl|].
  destruct (if is_nullish nv then _ else _) as [nextValue nextFrame'].
  simpl. intros k o Ho. rewrite GapFiller.kf_get_set.
  destruct (pkey_eqb (KNum frame) k) eqn:E.
  - eexists. split; [reflexivity|]. intros q Hq.
    unfold kf_at in Hk. rewrite (GapFiller.kf_get_equiv _ _ _ E) in Hk.
    assert (o = keyframe) by congruence. subst o.
    rewrite GapFiller.obj_has_set, obj_get_set, Hq.
    destruct (String.eqb_spec p q) as [Epq|_]; [|split; reflexivity].
    subst q. congruence.
  - exists o. split; [exact Ho|auto].
Qed.

Lemma fill_properties_keeps (frame : num) (i : nat) (props : list string)
    (kfs : kfmap) :
  keeps kfs
    (state_of (fill_properties tween_at a initialValues frame i props kfs)).
Proof.
  revert kfs. induction props as [|p props IH]; intros kfs;
    [apply keeps_refl|].
  simpl. pose proof (fill_property_keeps frame i p kfs) as H.
  destruct (fill_property tween_at a initialValues frame i p kfs)
    as [kfs1|e kfs1]; simpl in *; [|exact H].
  exact (keeps_trans _ _ _ H (IH kfs1)).
Qed.

Lemma fill_frames_keeps (props : list string) (frames : list num) (i : nat)
    (kfs : kfmap) :
  keeps kfs
    (state_of (fill_frames tween_at a initialValues props frames i kfs)).
Proof.
  revert i kfs. induction frames as [|frame frames IH]; intros i kfs;
    [apply keeps_refl|].
  simpl. pose proof (fill_properties_keeps frame i props kfs) as H.
  destruct (fill_properties tween_at a initialValues frame i props kfs)
    as [kfs1|e kfs1]; simpl in *; [|exact H].
  exact (keeps_trans _ _ _ H (IH (S i) kfs1)).
Qed.

(** X14: [_fillInProperties] adds to the keyframes and changes nothing in
    them: a property a keyframe declares has the same value afterwards,
    also when the filler throws. *)
Theorem fillInProperties_keeps_declared_values (k : pkey) (o : obj)
    (p : string) :
  kf_get (keyframes a) k = Some o -> obj_has o p = true ->
  exists o',
    kf_get (keyframes (state_of (_fillInProperties tween_at initialValues a)))
      k = Some o'
    /\ obj_has o' p = true /\ obj_get o' p = obj_get o p.
Proof.
  intros Ho Hp. unfold _fillInProperties.
  pose proof
    (fill_frames_keeps (gather_properties (keys a) (keyframes a)) (keys a) 0
       (keyframes a) k o Ho) as (o' & Ho' & H).
  exists o'. split; [|exact (H p Hp)].
  destruct (fill_frames _ _ _ _ _ _ _); exact Ho'.
Qed.

(** *** When the filler returns *)

Lemma first_defined_ok (kfs : kfmap) (p : string) (ks : list num) :
  Forall (fun k => kf_at kfs k <> None) ks ->
  first_defined kfs p ks = Val VNull
  \/ exists k, first_defined kfs p ks = Val (VNum k) /\ kf_at kfs k <> None.
Proof.
  induction ks as [|k ks IH]; intros H; [left; reflexivity|].
  inversion H as [|k' ks' Hk Hks]; subst. simpl.
  destruct (kf_at kfs k) as [keyframe|] eqn:E; [|contradiction].
  destruct (obj_has keyframe p); [|exact (IH Hks)].
  right. exists k. split; [reflexivity|congruence].
Qed.

Lemma frame_and_value_ok (kfs : kfmap) (p : string) (f : value) :
  f = VNull \/ (exists k, f = VNum k /\ kf_at kfs k <> None) ->
  exists v, frame_and_value kfs f p = Val v.
Proof.
  intros [->|(k & -> & Hk)]; unfold frame_and_value; simpl.
  - eexists. reflexivity.
  - destruct (num_truthy k); [|eexists; reflexivity].
    unfold kf_at in Hk. destruct (kf_get kfs (KNum k)); [|contradiction].
    eexists. reflexivity.
Qed.

Lemma Forall_firstn {A} (P : A -> Prop) (n : nat) (l : list A) :
  Forall P l -> Forall P (firstn n l).
Proof.
  intros H. rewrite <- (firstn_skipn n l) in H.
  apply Forall_app in H. tauto.
Qed.

Lemma Forall_skipn {A} (P : A -> Prop) (n : nat) (l : list A) :
  Forall P l -> Forall P (skipn n l).
Proof.
  intros H. rewrite <- (firstn_skipn n l) in H.
  apply Forall_app in H. tauto.
Qed.

Lemma fill_property_returns (frame : num) (i : nat) (p : string)
    (kfs : kfmap) :
  complete a kfs -> In frame (keys a) ->
  is_nullish (obj_get initialValues p) = false ->
  exists kfs',
    fill_property tween_at a initialValues frame i p kfs = Done kfs'
    /\ complete a kfs'.
Proof.
  intros Hc Hf Hi. unfold fill_property.
  assert (Hframe : kf_at kfs frame <> None).
  { unfold complete in Hc. rewrite Forall_forall in Hc. exact (Hc _ Hf). }
  destruct (kf_at kfs frame) as [keyframe|] eqn:Hk; [|contradiction].
  destruct (obj_has keyframe p); [exists kfs; split; [reflexivity|exact Hc]|].
  unfold getFrameOfLastDefinedProperty, getFrameOfNextDefinedProperty.
  assert (Hlast : Forall (fun k => kf_at kfs k <> None)
                    (rev (firstn i (keys a)))).
  { apply Forall_rev, Forall_firstn, Hc. }
  assert (Hnext : Forall (fun k => kf_at kfs k <> None) (skipn i (keys a))).
  { apply Forall_skipn, Hc. }
  pose proof (first_defined_ok kfs p _ Hlast) as Hl.
  pose proof (first_defined_ok kfs p _ Hnext) as Hn.
  assert (Hl' : exists f, first_defined kfs p (rev (firstn i (keys a)))
                          = Val f
                          /\ (f = VNull
                              \/ exists k, f = VNum k /\ kf_at kfs k <> None)).
  { destruct Hl as [E|(k & E & Hk')]; eexists; (split; [exact E|]);
      [left; reflexivity|right; exists k; split; [reflexivity|exact Hk']]. }
  assert (Hn' : exists f, first_defined kfs p (skipn i (keys a)) = Val f
                          /\ (f = VNull
                              \/ exists k, f = VNum k /\ kf_at kfs k <> None)).
  { destruct Hn as [E|(k & E & Hk')]; eexists; (split; [exact E|]);
      [left; reflexivity|right; exists k; split; [reflexivity|exact Hk']]. }
  destruct Hl' as (prevFrame & -> & Hpf). destruct Hn' as (nextFrame & -> & Hnf).
  destruct (frame_and_value_ok kfs p prevFrame Hpf) as (pv & ->).
  destruct (frame_and_value_ok kfs p nextFrame Hnf) as (nv & ->).
  assert (Hnn : is_nullish (js_or pv (obj_get initialValues p)) = false).
  { unfold js_or. destruct (truthy pv) eqn:T;
      [exact (truthy_not_nullish _ T)|exact Hi]. }
  rewrite Hnn.
  destruct (if is_nullish nv then _ else _) as [nextValue nextFrame'].
  eexists. split; [reflexivity|].
  unfold complete in *. rewrite Forall_forall in *. intros k Hk'.
  unfold kf_at. rewrite GapFiller.kf_get_set.
  destruct (pkey_eqb (KNum frame) (KNum k)); [discriminate|exact (Hc k Hk')].
Qed.

Lemma fill_properties_returns (frame : num) (i : nat) (props : list string)
    (kfs : kfmap) :
  complete a kfs -> In frame (keys a) ->
  Forall (fun p => is_nullish (obj_get initialValues p) = false) props ->
  exists kfs',
    fill_properties tween_at a initialValues frame i props kfs = Done kfs'
    /\ complete a kfs'.
Proof.
  intros Hc Hf Hp. revert kfs Hc.
  induction Hp as [|p props Hi Hp IH]; intros kfs Hc.
  - exists kfs. split; [reflexivity|exact Hc].
  - simpl. destruct (fill_property_returns frame i p kfs Hc Hf Hi)
      as (kfs1 & -> & Hc1).
    simpl. exact (IH kfs1 Hc1).
Qed.

Lemma fill_frames_returns (props : list string) (frames : list num) (i : nat)
    (kfs : kfmap) :
  complete a kfs -> incl frames (keys a) ->
  Forall (fun p => is_nullish (obj_get initialValues p) = false) props ->
  exists kfs',
    fill_frames tween_at a initialValues props frames i kfs = Done kfs'.
Proof.
  intros Hc Hf Hp. revert i kfs Hc.
  induction frames as [|frame frames IH]; intros i kfs Hc.
  - exists kfs. reflexivity.
  - simpl.
    destruct (fill_properties_returns frame i props kfs Hc
                (Hf frame (or_introl eq_refl)) Hp) as (kfs1 & -> & Hc1).
    simpl. apply IH; [|exact Hc1].
    intros x Hx. apply Hf. right. exact Hx.
Qed.

(** X15: [_fillInProperties] returns when every sorted key has a keyframe
    and the initial values give every property named in a keyframe a value
    other than [null] and [undefined]. *)
Theorem fillInProperties_returns :
  Forall (fun k => kf_at (keyframes a) k <> None) (keys a) ->
  Forall (fun p => is_nullish (obj_get initialValues p) = false)
    (gather_properties (keys a) (keyframes a)) ->
  exists a', _fillInProperties tween_at initialValues a = Done a'.
Proof.
  intros Hc Hp. unfold _fillInProperties.
  destruct (fill_frames_returns (gather_properties (keys a) (keyframes a))
              (keys a) 0 (keyframes a) Hc (incl_refl _) Hp) as (kfs & ->).
  eexists. reflexivity.
Qed.

End Fill.

(** *** The properties the filler gathers *)








Lemma fillInProperties_keeps_declared_values_witness :
  exists o',
    kf_get
      (keyframes (state_of (_fillInProperties linear_at gap_initial gap_unfilled)))
      (KNum (Fin 10)) = Some o'
    /\ obj_has o' "y" = true
    /\ obj_get o' "y" = obj_get [("y", vnum 10)] "y".
Proof.
  apply (fillInProperties_keeps_declared_values linear_at gap_unfilled
           gap_initial (KNum (Fin 10)) [("y", vnum 10)] "y").
  - reflexivity.
  - reflexivity.
Defined.

Lemma fillInProperties_returns_witness :
  exists a', _fillInProperties linear_at gap_initial gap_unfilled = Done a'.
Proof.
  apply (fillInProperties_returns linear_at gap_unfilled gap_initial).
  - repeat constructor; discriminate.
  - repeat constructor.
Defined.

End Filling.

(** ** Binding subjects and stepping *)

Module Stepping.

Section WithTween.

Variable tween_at :
  option obj -> option obj -> option (num -> num) -> num -> obj.

(** X16: [addSubjects] binds the subjects in the order given, one binding
    for each occurrence.  It throws only while no subject is bound, and
    then none is bound. *)
Theorem addSubjects_binds_in_order (l : list nat) (a : animation) :
  match addSubjects tween_at l a with
  | Done a' =>
      map subject (subjects a') = (map subject (subjects a) ++ l)%list
  | Raised _ a' => subjects a = [] /\ subjects a' = []
  end.
Proof.
  revert a. induction l as [|s l IH]; intros a.
  - simpl. rewrite app_nil_r. reflexivity.
  - simpl.
    destruct (Construction.addSubject_cases tween_at s a)
      as (kfs & [H|(Hs & e & H)]); cbv zeta in H; rewrite H; simpl.
    + specialize (IH (set_subjects
                        (subjects a ++
                         [mkBinding s
                            (_createTweens
                               (mixin (heap_get (attrs a) s)
                                  (kf_at (keyframes a) (Fin 0)))
                               (set_keyframes kfs a))])
                        (set_keyframes kfs a))).
      destruct (addSubjects tween_at l _) as [a'|e a'].
      * rewrite IH. simpl. rewrite map_app, <- app_assoc. reflexivity.
      * simpl in IH. destruct IH as [IH _].
        destruct (subjects a); discriminate.
    + split; [exact Hs|exact Hs].
Qed.

Lemma step_rec_index (d : nat) (p : num) (a : animation) :
  segments_ok a -> (segments_left a <= d)%nat ->
  exists i h,
    step_rec tween_at d p a = Done (stepped i h a)
    /\ (currentTweenIndex a <= i)%nat
    /\ (forall j, (currentTweenIndex a <= j < i)%nat -> exceeded a p j = true)
    /\ (exceeded a p i = false \/ is_last_segment a i = true)
    /\ segments_ok (stepped i h a).
Proof.
  revert a. induction d as [|d IH]; intros a Hok Hd;
    rewrite Playback.step_rec_eq;
    pose proof Hok as Hok'; unfold segments_ok in Hok';
    unfold segments_left in Hd;
    destruct (subjects a) as [|first rest] eqn:Hs; try contradiction;
    destruct Hok' as [Hi Hall];
    (destruct (nth_error (tweens first) (currentTweenIndex a)) as [t|] eqn:Hn;
     [|apply nth_error_None in Hn; lia]);
    cbv zeta;
    destruct (num_gt (phase_progress t (eased a p)) (Fin 1)) eqn:Hg;
    simpl andb;
    try destruct (Nat.ltb_spec (currentTweenIndex a + 1)
                    (List.length (tweens first))) as [Hlt|Hge];
    try lia.
  all: try
    (destruct (Playback.apply_tweens_ok tween_at (first :: rest)
                 (currentTweenIndex a) (phase_progress t (eased a p))
                 (attrs a)) as (h & Hh);
     [eapply Forall_impl; [|exact Hall]; simpl; intros b Hb; lia|];
     rewrite Hh; simpl outcome_map;
     exists (currentTweenIndex a), h;
     split; [destruct a; reflexivity|];
     split; [lia|]; split; [intros j Hj; lia|];
     split; [|unfold segments_ok, stepped; simpl; rewrite Hs; split;
              assumption]).
  - right. unfold is_last_segment. rewrite Hs. apply Nat.eqb_eq. lia.
  - left. unfold exceeded. rewrite Hs, Hn. exact Hg.
  - destruct (IH (set_currentTweenIndex (currentTweenIndex a + 1) a))
      as (i & h & H & Hle & Hex & Hstop & Hok2).
    + unfold segments_ok. simpl. rewrite Hs. split; assumption.
    + unfold segments_left. simpl. rewrite Hs. lia.
    + exists i, h. split; [exact H|]. simpl in Hle.
      split; [lia|]. split; [|split; [exact Hstop|exact Hok2]].
      intros j Hj.
      destruct (Nat.eq_dec j (currentTweenIndex a)) as [->|Hne].
      * unfold exceeded. rewrite Hs, Hn. exact Hg.
      * apply (Hex j). simpl. lia.
  - right. unfold is_last_segment. rewrite Hs. apply Nat.eqb_eq. lia.
  - left. unfold exceeded. rewrite Hs, Hn. exact Hg.
  - left. unfold exceeded. rewrite Hs, Hn. exact Hg.
Qed.

Lemma step_index (p : num) (a : animation) :
  segments_ok a ->
  exists i h,
    step tween_at p a = Done (stepped i h a)
    /\ (currentTweenIndex a <= i)%nat
    /\ (forall j, (currentTweenIndex a <= j < i)%nat -> exceeded a p j = true)
    /\ (exceeded a p i = false \/ is_last_segment a i = true)
    /\ segments_ok (stepped i h a).
Proof.
  intros Hok. unfold step. apply step_rec_index; [exact Hok|].
  unfold segments_left. destruct (subjects a); lia.
Qed.

(** X17: [step] settles on the first segment, from the current one on,
    whose window the eased progress does not lie behind, and on the last
    segment when it lies behind all of them. *)
Theorem step_settles_on_first_fitting_segment (p : num) (a : animation) :
  segments_ok a ->
  exists a',
    step tween_at p a = Done a'
    /\ (currentTweenIndex a <= currentTweenIndex a')%nat
    /\ (forall j, (currentTweenIndex a <= j < currentTweenIndex a')%nat ->
          exceeded a p j = true)
    /\ (exceeded a p (currentTweenIndex a') = false
        \/ is_last_segment a (currentTweenIndex a') = true).
Proof.
  intros Hok.
  destruct (step_index p a Hok) as (i & h & H & Hle & Hex & Hstop & _).
  exists (stepped i h a). split; [exact H|]. simpl. auto.
Qed.

(** X18: a second [step] with the same progress stays on the segment the
    first one settled on. *)
Theorem step_again_stays (p : num) (a : animation) :
  segments_ok a ->
  exists a1 a2,
    step tween_at p a = Done a1 /\ step tween_at p a1 = Done a2
    /\ currentTweenIndex a2 = currentTweenIndex a1.
Proof.
  intros Hok.
  destruct (step_index p a Hok) as (i & h & H & Hle & _ & Hstop & Hok1).
  destruct (step_index p (stepped i h a) Hok1)
    as (i2 & h2 & H2 & Hle2 & Hex2 & _ & Hok2).
  exists (stepped i h a), (stepped i2 h2 (stepped i h a)).
  split; [exact H|]. split; [exact H2|]. simpl in Hle2 |- *.
  destruct (Nat.eq_dec i2 i) as [E|Hne]; [exact E|].
  assert (Hx : exceeded (stepped i h a) p i = true).
  { apply Hex2. simpl. lia. }
  change (exceeded (stepped i h a) p i) with (exceeded a p i) in Hx.
  destruct Hstop as [Hstop|Hlast]; [congruence|].
  unfold segments_ok in Hok2. unfold is_last_segment in Hlast.
  simpl in Hok2. destruct (subjects a) as [|first rest]; [contradiction|].
  apply Nat.eqb_eq in Hlast. lia.
Qed.

End WithTween.

Lemma step_settles_on_first_fitting_segment_witness :
  exists a',
    step linear_at (Fin (7 # 10)) Scenario.three_keys_state = Done a'
    /\ (currentTweenIndex Scenario.three_keys_state <= currentTweenIndex a')%nat
    /\ (forall j,
          (currentTweenIndex Scenario.three_keys_state <= j
           < currentTweenIndex a')%nat ->
          exceeded Scenario.three_keys_state (Fin (7 # 10)) j = true)
    /\ (exceeded Scenario.three_keys_state (Fin (7 # 10))
          (currentTweenIndex a') = false
        \/ is_last_segment Scenario.three_keys_state (currentTweenIndex a')
           = true).
Proof.
  apply (step_settles_on_first_fitting_segment linear_at (Fin (7 # 10))
           Scenario.three_keys_state).
  exact Lifecycle.three_keys_segments_ok.
Defined.

Lemma step_again_stays_witness :
  exists a1 a2,
    step linear_at (Fin (7 # 10)) Scenario.three_keys_state = Done a1
    /\ step linear_at (Fin (7 # 10)) a1 = Done a2
    /\ currentTweenIndex a2 = currentTweenIndex a1.
Proof.
  apply (step_again_stays linear_at (Fin (7 # 10)) Scenario.three_keys_state).
  exact Lifecycle.three_keys_segments_ok.
Defined.

End Stepping.
